(** * A shallow embedding of the AC3 / backtracking Sudoku solver (sudoku.py)

    The board is a Python dictionary from the strings "A1" .. "I9" to
    integers; the solver object carries the board, the candidate lists
    ([domain]), the list of unresolved cells and the guess list.  Python
    exceptions are results of the error monad [result]; the two [while]
    loops and the recursion of the search run on fuel that each entry
    point computes from the state it is given. *)

From stdpp Require Import base option list gmap sets strings.
From Stdlib Require Import ZArith Lia.
From Stdlib Require DecimalString.

Local Open Scope string_scope.
Local Open Scope Z_scope.

(** ** Exceptions *)

Inductive exn := KeyError | IndexError | ValueError.

Inductive result (A : Type) : Type :=
| Ok (a : A)
| Raise (e : exn)
| NoFuel.
Arguments Ok {A} a.
Arguments Raise {A} e.
Arguments NoFuel {A}.

#[export] Instance result_ret : MRet result := fun A a => Ok a.
#[export] Instance result_bind : MBind result := fun A B f m =>
  match m with
  | Ok a => f a
  | Raise e => Raise e
  | NoFuel => NoFuel
  end.

(** [d[k]] on a dictionary *)
Definition getitem {V} (m : gmap string V) (k : string) : result V :=
  match m !! k with
  | Some v => Ok v
  | None => Raise KeyError
  end.

(** [l.index(x)] followed by [del l[b]]: the first occurrence goes *)
Fixpoint remove_first (x : Z) (l : list Z) : list Z :=
  match l with
  | [] => []
  | y :: l' => if Z.eqb x y then l' else y :: remove_first x l'
  end.

(** [l.remove(x)] on the list of unresolved keys *)
Fixpoint list_remove (x : string) (l : list string) : result (list string) :=
  match l with
  | [] => Raise ValueError
  | y :: l' =>
      if bool_decide (x = y) then Ok l'
      else l'' ← list_remove x l'; Ok (y :: l'')
  end.

(** ** The fixed topology *)

Definition ROW : string := "ABCDEFGHI".
Definition COL : string := "123456789".

(** iterating over a string yields its one-character strings *)
Fixpoint chars (s : string) : list string :=
  match s with
  | EmptyString => []
  | String a s' => String a EmptyString :: chars s'
  end.

Definition char_at (s : string) (i : nat) : string :=
  match String.get i s with
  | Some a => String a EmptyString
  | None => EmptyString
  end.

Definition keys : list string :=
  r ← chars ROW; c ← chars COL; [r +:+ c].

Definition constraints_row : list (list string) :=
  (fun r => (fun c => r +:+ c) <$> chars COL) <$> chars ROW.

Definition constraints_col : list (list string) :=
  (fun c => (fun r => r +:+ c) <$> chars ROW) <$> chars COL.

Definition constraints_box : list (list string) :=
  r_box ← seq 0 3; c_box ← seq 0 3;
  [ r ← seq 0 3; c ← seq 0 3;
    [char_at ROW (3 * r_box + r) +:+ char_at COL (3 * c_box + c)] ].

Definition constraints_lists_all : list (list (list string)) :=
  [constraints_row; constraints_col; constraints_box].

(** The loops [for constraints_list in self.constraints_lists_all: for
    constraint_list in constraints_list:] visit the 27 groups in this order. *)
Definition all_groups : list (list string) := concat constraints_lists_all.

Arguments keys : simpl never.
Arguments all_groups : simpl never.

(** ** The solver object *)

Record Sudoku := mkSudoku {
  board : gmap string Z;
  guess_list : list (nat * string);
  domain : gmap string (list Z);
  unresolved : list string
}.

Definition digits : list Z := [1; 2; 3; 4; 5; 6; 7; 8; 9].

(** [__init__], lines 94-100 *)
Fixpoint init_domain (b : gmap string Z) (ks : list string)
    (d : gmap string (list Z)) (u : list string)
  : result (gmap string (list Z) * list string) :=
  match ks with
  | [] => Ok (d, u)
  | location :: ks' =>
      v ← getitem b location;
      if Z.eqb v 0
      then init_domain b ks' (<[location := digits]> d) (u ++ [location])
      else init_domain b ks' d u
  end.

Definition init (b : gmap string Z) : result Sudoku :=
  '(d, u) ← init_domain b keys ∅ [];
  Ok {| board := b; guess_list := []; domain := d; unresolved := u |}.

(** [x in self.board.values()] *)
Definition contains_value (x : Z) (b : gmap string Z) : bool :=
  existsb (Z.eqb x) (snd <$> map_to_list b).

Definition is_incomplete (s : Sudoku) : bool := contains_value 0 (board s).

(** The scan of one group in [is_solved], with its [seen] set *)
Fixpoint distinct_values (b : gmap string Z) (cl : list string) (seen : gset Z)
  : result bool :=
  match cl with
  | [] => Ok true
  | key :: cl' =>
      v ← getitem b key;
      if bool_decide (v ∈ seen) then Ok false
      else distinct_values b cl' ({[v]} ∪ seen)
  end.

Fixpoint all_distinct (b : gmap string Z) (cls : list (list string))
  : result bool :=
  match cls with
  | [] => Ok true
  | cl :: cls' =>
      ok ← distinct_values b cl ∅;
      if ok : bool then all_distinct b cls' else Ok false
  end.

Definition is_solved (s : Sudoku) : result bool :=
  if is_incomplete s || contains_value (-1) (board s) then Ok false
  else all_distinct (board s) all_groups.

(** [make_move]: the inner loop [for k in constraint_list] *)
Fixpoint holds_value (b : gmap string Z) (value : Z) (cl : list string)
  : result bool :=
  match cl with
  | [] => Ok false
  | k :: cl' =>
      v ← getitem b k;
      if Z.eqb value v then Ok true else holds_value b value cl'
  end.

Fixpoint make_move_groups (b : gmap string Z) (key : string) (value : Z)
    (cls : list (list string)) : result Z :=
  match cls with
  | [] => Ok value
  | cl :: cls' =>
      if bool_decide (key ∈ cl) then
        hit ← holds_value b value cl;
        if hit : bool then Ok (-1) else make_move_groups b key value cls'
      else make_move_groups b key value cls'
  end.

Definition make_move (s : Sudoku) (key : string) (value : Z) : result Z :=
  make_move_groups (board s) key value all_groups.

(** Control flow of a loop body that may [return] from the function *)
Inductive ctl (A R : Type) : Type :=
| Go (a : A)
| Ret (r : R).
Arguments Go {A R} a.
Arguments Ret {A R} r.

(** The loop variables of [make_moves] *)
Record mm_vars := mkVars {
  mm_state : Sudoku;
  continue_loop : bool;
  has_changes : bool
}.

(** [make_moves], lines 146-155: the body of [for k in constraint_list] *)
Definition make_moves_body (key k : string) (x : mm_vars)
  : result (ctl mm_vars (Sudoku * bool)) :=
  let s := mm_state x in
  v ← getitem (board s) k;
  if Z.eqb v 0 then Ok (Go x) else
  d ← getitem (domain s) key;
  if bool_decide (v ∈ d) then
    let d' := remove_first v d in
    let s1 := {| board := board s; guess_list := guess_list s;
                 domain := <[key := d']> (domain s);
                 unresolved := unresolved s |} in
    match d' with
    | [c] =>
        m ← make_move s1 key c;
        u ← list_remove key (unresolved s1);
        Ok (Ret ({| board := <[key := m]> (board s1);
                    guess_list := guess_list s1;
                    domain := delete key (domain s1);
                    unresolved := u |}, false))
    | _ => Ok (Go {| mm_state := s1; continue_loop := true; has_changes := true |})
    end
  else Ok (Go x).

Fixpoint make_moves_for (key : string) (cl : list string) (x : mm_vars)
  : result (ctl mm_vars (Sudoku * bool)) :=
  match cl with
  | [] => Ok (Go x)
  | k :: cl' =>
      r ← make_moves_body key k x;
      match r with
      | Go x' => make_moves_for key cl' x'
      | Ret out => Ok (Ret out)
      end
  end.

Fixpoint make_moves_while (fuel : nat) (key : string) (cl : list string)
    (s : Sudoku) (hc : bool) : result (Sudoku * bool) :=
  match fuel with
  | O => NoFuel
  | S n =>
      r ← make_moves_for key cl
            {| mm_state := s; continue_loop := false; has_changes := hc |};
      match r with
      | Ret out => Ok out
      | Go x =>
          if continue_loop x
          then make_moves_while n key cl (mm_state x) (has_changes x)
          else Ok (mm_state x, has_changes x)
      end
  end.

(** every turn of the [while] but the last deletes one candidate of [key] *)
Definition make_moves (key : string) (cl : list string) (s : Sudoku)
  : result (Sudoku * bool) :=
  make_moves_while (S (length (default [] (domain s !! key)))) key cl s false.

(** [ac3], lines 165-167; [or] does not call [make_moves] once
    [has_changes] is true *)
Fixpoint ac3_keys (cl ks : list string) (s : Sudoku) (hc : bool)
  : result (Sudoku * bool) :=
  match ks with
  | [] => Ok (s, hc)
  | key :: ks' =>
      if bool_decide (key ∈ unresolved s) then
        if hc then ac3_keys cl ks' s true
        else '(s', b) ← make_moves key cl s; ac3_keys cl ks' s' b
      else ac3_keys cl ks' s hc
  end.

Fixpoint ac3_groups (cls : list (list string)) (s : Sudoku) (hc : bool)
  : result (Sudoku * bool) :=
  match cls with
  | [] => Ok (s, hc)
  | cl :: cls' => '(s', b) ← ac3_keys cl cl s hc; ac3_groups cls' s' b
  end.

(** one turn of [while has_changes] *)
Definition sweep (s : Sudoku) : result (Sudoku * bool) :=
  ac3_groups all_groups s false.

Fixpoint ac3_while (fuel : nat) (s : Sudoku) : result Sudoku :=
  match fuel with
  | O => NoFuel
  | S n =>
      '(s', b) ← sweep s;
      if b : bool then ac3_while n s' else Ok s'
  end.

(** the number of (cell, digit) candidates *)
Definition candidates (d : gmap string (list Z)) : nat :=
  map_fold (fun _ l acc => (length l + acc)%nat) 0%nat d.

Definition ac3 (s : Sudoku) : result Sudoku :=
  ac3_while (S (candidates (domain s))) s.

(** [expand_guess_tree], lines 173-185.  Tuples [(len, key)] compare by
    length first and by the key's string order second.  The tuples of one
    dictionary are pairwise distinct and the order is total, so the sorted
    list is the same for every order in which the items are listed. *)
Definition guess_leb (a b : nat * string) : bool :=
  (a.1 <? b.1)%nat || ((a.1 =? b.1)%nat && String.leb a.2 b.2).

Fixpoint insert_guess (a : nat * string) (l : list (nat * string))
  : list (nat * string) :=
  match l with
  | [] => [a]
  | b :: l' => if guess_leb a b then a :: b :: l' else b :: insert_guess a l'
  end.

Definition sort_guesses (l : list (nat * string)) : list (nat * string) :=
  foldr insert_guess [] l.

Definition pick (s : Sudoku) : result (string * list Z * Sudoku) :=
  let gl := sort_guesses
              ((fun kv : string * list Z => (length kv.2, kv.1))
                 <$> map_to_list (domain s)) in
  match gl with
  | [] => Raise IndexError
  | next_guess :: gl' =>
      let key := next_guess.2 in
      values_list ← getitem (domain s) key;
      u ← list_remove key (unresolved s);
      Ok (key, values_list,
          {| board := board s; guess_list := gl';
             domain := delete key (domain s); unresolved := u |})
  end.

(** lines 188-212: [p] is a deep copy, so the parent [s1] is untouched *)
Fixpoint try_values (rec : Sudoku → result (Sudoku * option Sudoku))
    (key : string) (s1 : Sudoku) (values_list : list Z)
  : result (option Sudoku) :=
  match values_list with
  | [] => Ok None
  | value :: rest =>
      let p := {| board := <[key := value]> (board s1);
                  guess_list := guess_list s1; domain := domain s1;
                  unresolved := unresolved s1 |} in
      p ← ac3 p;
      solved ← is_solved p;
      if solved : bool then Ok (Some p)
      else if is_incomplete p then
        '(_, r) ← rec p;
        match r with
        | Some q => Ok (Some q)
        | None => try_values rec key s1 rest
        end
      else try_values rec key s1 rest
  end.

(** returns the object's own final state and the returned object *)
Fixpoint expand_guess_tree (fuel : nat) (s : Sudoku)
  : result (Sudoku * option Sudoku) :=
  match fuel with
  | O => NoFuel
  | S n =>
      '(key, values_list, s1) ← pick s;
      r ← try_values (expand_guess_tree n) key s1 values_list;
      Ok (s1, r)
  end.

(** the branch [solve] takes after propagation *)
Inductive verdict := Solved | Incomplete | Invalid.

Definition classify (s : Sudoku) : result verdict :=
  solved ← is_solved s;
  if solved : bool then Ok Solved
  else if is_incomplete s then Ok Incomplete
  else Ok Invalid.

Definition solve (s : Sudoku) : result (Sudoku * option Sudoku) :=
  s' ← ac3 s;
  v ← classify s';
  match v with
  | Solved => Ok (s', Some s')
  | Incomplete => expand_guess_tree (S (size (domain s'))) s'
  | Invalid => Ok (s', None)
  end.

(** [backtracking]: [Sudoku(board)] keeps a reference to the caller's
    dictionary, so [return board] yields that dictionary as [solve] left it,
    which is the board of the object's final state. *)
Definition backtracking (board0 : gmap string Z) : result (gmap string Z) :=
  b ← init board0;
  '(b', s) ← solve b;
  match s with
  | None => Ok (board b')
  | Some p => Ok (board p)
  end.

(** the dictionary built from the 81 digits of an input line *)
Definition parse_board (l : list Z) : gmap string Z :=
  list_to_map (zip keys l).

(** an input grid: exactly the 81 keys, each holding a digit 0..9 *)
Definition well_formed (b : gmap string Z) : bool :=
  forallb (fun kv : string * Z =>
             bool_decide (kv.1 ∈ keys) && Z.leb 0 kv.2 && Z.leb kv.2 9)
          (map_to_list b)
  && forallb (fun k => bool_decide (is_Some (b !! k))) keys.

(** ** Reading and writing grids *)

(** [str(n)] *)
Definition str_int (z : Z) : string :=
  DecimalString.NilZero.string_of_int (Z.to_int z).

(** [int(c)] for a one-character string; a line is a string of ASCII
    characters, of which only the digits 0..9 convert *)
Definition int_char (a : Ascii.ascii) : result Z :=
  let n := Z.of_nat (Ascii.nat_of_ascii a) in
  if Z.leb 48 n && Z.leb n 57 then Ok (n - 48) else Raise ValueError.

(** the cells of [for r in range(9) for c in range(9)], each with its key
    [ROW[r] + COL[c]] and its index [9*r+c] in the line *)
Definition cell_positions : list (string * nat) :=
  r ← seq 0 9; c ← seq 0 9;
  [(char_at ROW r +:+ char_at COL c, (9 * r + c)%nat)].

(** the dictionary comprehension of [__main__] *)
Fixpoint read_cells (line : string) (ps : list (string * nat))
    (m : gmap string Z) : result (gmap string Z) :=
  match ps with
  | [] => Ok m
  | (k, i) :: ps' =>
      match String.get i line with
      | None => Raise IndexError
      | Some a => v ← int_char a; read_cells line ps' (<[k := v]> m)
      end
  end.

Definition parse_line (line : string) : result (gmap string Z) :=
  read_cells line cell_positions ∅.

(** [board_to_string] *)
Fixpoint ordered_vals (b : gmap string Z) (ks : list string)
  : result (list string) :=
  match ks with
  | [] => Ok []
  | k :: ks' =>
      v ← getitem b k;
      vs ← ordered_vals b ks';
      Ok (str_int v :: vs)
  end.

Definition board_to_string (b : gmap string Z) : result string :=
  vs ← ordered_vals b keys; Ok (String.concat "" vs).

(** [Sudoku.__str__] *)
Definition to_str (s : Sudoku) : result string := board_to_string (board s).

(** ['\n'] *)
Definition newline : string := String (Ascii.ascii_of_nat 10) EmptyString.

(** what [__main__] writes to the output file for one puzzle line *)
Definition solve_line (line : string) : result string :=
  board ← parse_line line;
  solved_board ← backtracking board;
  out ← board_to_string solved_board;
  Ok (out +:+ newline).

(** the loop over the lines of the puzzle file: what is written to the
    output file (the boards printed on the way are not modelled) *)
Fixpoint solve_lines (lines : list string) : result (list string) :=
  match lines with
  | [] => Ok []
  | line :: rest =>
      if (String.length line <? 9)%nat then solve_lines rest
      else
        out ← solve_line line;
        outs ← solve_lines rest;
        Ok (out :: outs)
  end.

(** ** The invariant of the solver object *)

Record Inv (s : Sudoku) : Prop := {
  inv_keys : ∀ k, k ∈ keys ↔ is_Some (board s !! k);
  inv_range : ∀ k v, board s !! k = Some v → -1 ≤ v ≤ 9;
  inv_empty : ∀ k, is_Some (domain s !! k) → board s !! k = Some 0;
  inv_unres : ∀ k, k ∈ unresolved s ↔ is_Some (domain s !! k);
  inv_nodup : NoDup (unresolved s);
  inv_cand : ∀ k d, domain s !! k = Some d →
             (2 ≤ length d)%nat ∧ Forall (fun v => 1 ≤ v ≤ 9) d
}.

(** every empty cell has a Domain entry *)
Definition Complete (s : Sudoku) : Prop :=
  ∀ k, board s !! k = Some 0 → is_Some (domain s !! k).

(** what a later state owes to an earlier one: cells without a Domain
    entry keep their value and get no entry, candidate lists only lose
    elements *)
Record evolves (s s' : Sudoku) : Prop := {
  ev_frame : ∀ k, domain s !! k = None → board s' !! k = board s !! k;
  ev_shrink : ∀ k d', domain s' !! k = Some d' →
              ∃ d, domain s !! k = Some d ∧ d' ⊆ d ∧ (length d' ≤ length d)%nat;
  ev_cand : (candidates (domain s') ≤ candidates (domain s))%nat
}.

(** ** The states of one run *)

Inductive phase := Fresh | Propagated | Branching.

(** [Fresh]: an object about to run [ac3] (the initial one, or a copy with
    its candidate assigned); [Propagated]: as [ac3] left it; [Branching]:
    the parent inside [expand_guess_tree] after line 185, the state that
    is deep-copied for every candidate. *)
Inductive reachable (b0 : gmap string Z) : phase → Sudoku → Prop :=
| reach_init s :
    init b0 = Ok s → reachable b0 Fresh s
| reach_ac3 s s' :
    reachable b0 Fresh s → ac3 s = Ok s' → reachable b0 Propagated s'
| reach_pick s key values_list s1 :
    reachable b0 Propagated s → classify s = Ok Incomplete →
    pick s = Ok (key, values_list, s1) →
    reachable b0 Branching s1
| reach_copy s key values_list s1 value :
    reachable b0 Propagated s → classify s = Ok Incomplete →
    pick s = Ok (key, values_list, s1) → value ∈ values_list →
    reachable b0 Fresh
      {| board := <[key := value]> (board s1); guess_list := guess_list s1;
         domain := domain s1; unresolved := unresolved s1 |}.

(** a board on which every row, column and block holds each digit once *)
Definition valid_board (b : gmap string Z) : Prop :=
  (∀ k, k ∈ keys → ∃ v, b !! k = Some v ∧ v ≠ 0 ∧ v ≠ -1) ∧
  (∀ cl d, cl ∈ all_groups → 1 ≤ d ≤ 9 →
     length (filter (fun k => b !! k = Some d) cl) = 1%nat).

(** ** Auxiliary definitions for the proofs *)

Ltac by_compute :=
  match goal with
  | |- ?P => apply (bool_decide_unpack P); vm_compute; exact I
  end.

Record steps (s s' : Sudoku) : Prop := {
  st_inv : Inv s';
  st_ev : evolves s s';
  st_complete : Complete s → Complete s'
}.

Definition klen (key : string) (s : Sudoku) : nat :=
  length (default [] (domain s !! key)).

(** what one turn of a loop of [make_moves] did: nothing, or it deleted a
    candidate of [key] and set both flags *)
Definition moved (key : string) (x x' : mm_vars) : Prop :=
  x' = x ∨
  (continue_loop x' = true ∧ has_changes x' = true ∧
   (klen key (mm_state x') < klen key (mm_state x))%nat ∧
   (candidates (domain (mm_state x')) < candidates (domain (mm_state x)))%nat).

(** the sorted list starts with a least element *)
Definition least_first (l : list (nat * string)) : Prop :=
  match l with
  | [] => True
  | a :: _ => ∀ x, x ∈ l → guess_leb a x = true
  end.

(** what a returned object owes to the state the search started from *)
Definition found (s : Sudoku) (r : option Sudoku) : Prop :=
  match r with
  | Some p => steps s p ∧ is_solved p = Ok true
  | None => True
  end.

Ltac conjs := repeat match goal with |- _ ∧ _ => split end.

Definition check_inv (s : Sudoku) : bool :=
  forallb (fun k => bool_decide (is_Some (board s !! k))) keys
  && forallb (fun kv : string * Z =>
                bool_decide (kv.1 ∈ keys) && Z.leb (-1) kv.2 && Z.leb kv.2 9)
             (map_to_list (board s))
  && forallb (fun kd : string * list Z =>
                bool_decide (board s !! kd.1 = Some 0)
                && bool_decide (kd.1 ∈ unresolved s)
                && Nat.leb 2 (length kd.2)
                && forallb (fun v => Z.leb 1 v && Z.leb v 9) kd.2)
             (map_to_list (domain s))
  && forallb (fun k => bool_decide (is_Some (domain s !! k))) (unresolved s)
  && bool_decide (NoDup (unresolved s)).

(** ** Concrete grids *)

(** a full solution whose cell A1 was emptied and whose cell B1 was set to 1,
    so that row B holds two 1s and column 1 leaves no digit for A1 *)
Definition grid_conflict : list Z :=
  [0;2;3;4;5;6;7;8;9;
   1;5;6;7;8;9;1;2;3;
   7;8;9;1;2;3;4;5;6;
   2;3;4;5;6;7;8;9;1;
   5;6;7;8;9;1;2;3;4;
   8;9;1;2;3;4;5;6;7;
   3;4;5;6;7;8;9;1;2;
   6;7;8;9;1;2;3;4;5;
   9;1;2;3;4;5;6;7;8].

(** eight givens in the top right block *)
Definition grid_block : list Z :=
  [0;0;0;0;0;0;1;2;0;
   0;0;0;0;0;0;3;4;5;
   0;0;0;0;0;0;6;7;8;
   0;0;0;0;0;0;0;0;0;
   0;0;0;0;0;0;0;0;0;
   0;0;0;0;0;0;0;0;0;
   0;0;0;0;0;0;0;0;0;
   0;0;0;0;0;0;0;0;0;
   0;0;0;0;0;0;0;0;0].

(** row A leaves only 1 for A1, and B1 holds 1 *)
Definition grid_sentinel : list Z :=
  [0;2;3;4;5;6;7;8;9;
   1;0;0;0;0;0;0;0;0;
   0;0;0;0;0;0;0;0;0;
   0;0;0;0;0;0;0;0;0;
   0;0;0;0;0;0;0;0;0;
   0;0;0;0;0;0;0;0;0;
   0;0;0;0;0;0;0;0;0;
   0;0;0;0;0;0;0;0;0;
   0;0;0;0;0;0;0;0;0].

Definition grid_empty : list Z := replicate 81 0.

(** a single given *)
Definition grid_one : list Z := 5 :: replicate 80 0.

Definition grid_solved : list Z :=
  [1;2;3;4;5;6;7;8;9;
   4;5;6;7;8;9;1;2;3;
   7;8;9;1;2;3;4;5;6;
   2;3;4;5;6;7;8;9;1;
   5;6;7;8;9;1;2;3;4;
   8;9;1;2;3;4;5;6;7;
   3;4;5;6;7;8;9;1;2;
   6;7;8;9;1;2;3;4;5;
   9;1;2;3;4;5;6;7;8].

(** the solution with A1 and E5 emptied *)
Definition grid_easy : list Z :=
  [0;2;3;4;5;6;7;8;9;
   4;5;6;7;8;9;1;2;3;
   7;8;9;1;2;3;4;5;6;
   2;3;4;5;6;7;8;9;1;
   5;6;7;8;0;1;2;3;4;
   8;9;1;2;3;4;5;6;7;
   3;4;5;6;7;8;9;1;2;
   6;7;8;9;1;2;3;4;5;
   9;1;2;3;4;5;6;7;8].

(** the object made from a grid *)
Definition start (l : list Z) : Sudoku :=
  match init (parse_board l) with
  | Ok s => s
  | _ => {| board := ∅; guess_list := []; domain := ∅; unresolved := [] |}
  end.

(** the object after the first propagation *)
Definition propagated (l : list Z) : Sudoku :=
  match ac3 (start l) with
  | Ok s => s
  | _ => start l
  end.

(** [ac3] left a fixpoint: no candidate of an unresolved cell is held by
    another cell of one of its groups *)
Definition arc_consistent (s : Sudoku) : Prop :=
  ∀ key d cl k v,
    domain s !! key = Some d → cl ∈ all_groups → key ∈ cl → k ∈ cl →
    k ≠ key → board s !! k = Some v → v ≠ 0 → v ∉ d.

(** a test on the value a computation returns *)
Definition holds {A} (r : result A) (P : A → bool) : bool :=
  match r with
  | Ok a => P a
  | _ => false
  end.

Ltac run := vm_compute; reflexivity.

(** the last deletion for A1 on [grid_conflict]: 9 goes, 1 is left, and B1
    holds 1 *)
Definition collapse_vars : mm_vars :=
  {| mm_state := {| board := parse_board grid_conflict; guess_list := [];
                    domain := {[ "A1" := [1; 9] ]}; unresolved := ["A1"] |};
     continue_loop := true; has_changes := true |}.

(** ** Definitions for the further properties *)

(** the two ways in which propagation changes a state *)
Inductive prop_step (s s' : Sudoku) : Prop :=
| step_delete key k cl v d :
    cl ∈ all_groups → key ∈ cl → k ∈ cl →
    board s !! k = Some v → v ≠ 0 →
    domain s !! key = Some d → v ∈ d →
    (2 ≤ length (remove_first v d))%nat →
    s' = {| board := board s; guess_list := guess_list s;
            domain := <[key := remove_first v d]> (domain s);
            unresolved := unresolved s |} →
    prop_step s s'
| step_commit key k cl v d c m u :
    cl ∈ all_groups → key ∈ cl → k ∈ cl →
    board s !! k = Some v → v ≠ 0 →
    domain s !! key = Some d → v ∈ d →
    remove_first v d = [c] →
    make_move s key c = Ok m →
    list_remove key (unresolved s) = Ok u →
    s' = {| board := <[key := m]> (board s); guess_list := guess_list s;
            domain := delete key (domain s); unresolved := u |} →
    prop_step s s'.

Definition ctl_state (r : ctl mm_vars (Sudoku * bool)) : Sudoku :=
  match r with
  | Go x => mm_state x
  | Ret (s, _) => s
  end.

(** [σ] is a full valid board that keeps the givens of [b0] *)
Definition solution (b0 σ : gmap string Z) : Prop :=
  well_formed σ = true ∧ valid_board σ ∧
  ∀ k v, b0 !! k = Some v → v ≠ 0 → σ !! k = Some v.

(** every cell holds the digit of [σ], or is empty with that digit among
    its candidates *)
Definition compatible (σ : gmap string Z) (s : Sudoku) : Prop :=
  ∀ k, board s !! k = σ !! k ∨
       (board s !! k = Some 0 ∧
        ∃ d v, domain s !! k = Some d ∧ σ !! k = Some v ∧ v ∈ d).

(** no two cells of a group hold the same digit *)
Definition conflict_free (b : gmap string Z) : Prop :=
  ∀ cl k k' v, cl ∈ all_groups → k ∈ cl → k' ∈ cl → k ≠ k' →
               b !! k = Some v → b !! k' = Some v → v = 0 ∨ v = -1.

(** a test for "[σ] keeps the givens of [b0]" *)
Definition keeps_givens (b0 σ : gmap string Z) : bool :=
  forallb (fun kv : string * Z =>
             Z.eqb kv.2 0 || bool_decide (σ !! kv.1 = Some kv.2))
          (map_to_list b0).

(** the character of a digit, and the line of a list of digits *)
Definition digit_char (v : Z) : Ascii.ascii := Ascii.ascii_of_nat (48 + Z.to_nat v).

Definition line_of (vs : list Z) : string :=
  foldr (fun v s => String (digit_char v) s) EmptyString vs.

(** the values of the 81 cells, row by row *)
Definition cell_values (b : gmap string Z) : list Z :=
  (fun k => default 0 (b !! k)) <$> keys.

(** the relation between the indices of a line and the values read there *)
Definition reads (line : string) (i : nat) (v : Z) : Prop :=
  ∃ a, String.get i line = Some a ∧ int_char a = Ok v.

Definition line_easy : string :=
  "023456789456789123789123456234567891567801234891234567345678912678912345912345678".

(** the line holds ASCII characters only: there a character of the Python
    string is a character of the model, and [int] converts the digits
    0..9 and nothing else *)
Definition ascii_line (line : string) : bool :=
  forallb (fun a => Nat.ltb (Ascii.nat_of_ascii a) 128)
          (String.list_ascii_of_string line).

(** the [j] characters of the line from index [n] on are digits *)
Definition digits_before (line : string) (n j : nat) : Prop :=
  ∀ i, (i < j)%nat → ∃ v, reads line (n + i) v.

(** a digit missing from the candidates of [key] is held in one of its groups *)
Definition justified (s : Sudoku) (key : string) (v : Z) : Prop :=
  ∃ cl k, cl ∈ all_groups ∧ key ∈ cl ∧ k ∈ cl ∧ board s !! k = Some v.

(** ** Facts about the topology *)

Lemma keys_NoDup : NoDup keys.
Proof. by_compute. Qed.

Lemma groups_in_keys cl k : cl ∈ all_groups → k ∈ cl → k ∈ keys.
Proof.
  assert (H : Forall (Forall (fun k => k ∈ keys)) all_groups).
  { by_compute. }
  intros Hcl Hk. rewrite Forall_forall in H. specialize (H _ Hcl).
  rewrite Forall_forall in H. auto.
Qed.

Lemma groups_length cl : cl ∈ all_groups → length cl = 9%nat.
Proof.
  assert (H : Forall (fun cl => length cl = 9%nat) all_groups).
  { by_compute. }
  rewrite Forall_forall in H. auto.
Qed.

Lemma three_groups k :
  k ∈ keys → length (filter (fun cl => k ∈ cl) all_groups) = 3%nat.
Proof.
  assert (H : Forall (fun k => length (filter (fun cl => k ∈ cl) all_groups) = 3%nat)
                     keys) by by_compute.
  rewrite Forall_forall in H. auto.
Qed.

(** ** The error monad *)

Lemma bind_Ok {A B} (m : result A) (f : A → result B) (r : B) :
  m ≫= f = Ok r ↔ ∃ a, m = Ok a ∧ f a = Ok r.
Proof.
  destruct m as [a| |]; simpl; split; try (intros [? [? ?]]); try discriminate.
  - eauto.
  - congruence.
Qed.

Lemma getitem_Ok {V} (m : gmap string V) (k : string) (v : V) :
  getitem m k = Ok v ↔ m !! k = Some v.
Proof. unfold getitem. destruct (m !! k); split; congruence. Qed.

Lemma getitem_Some {V} (m : gmap string V) (k : string) (v : V) :
  m !! k = Some v → getitem m k = Ok v.
Proof. apply getitem_Ok. Qed.

(** ** List helpers *)

Lemma remove_first_length (v : Z) (d : list Z) :
  v ∈ d → S (length (remove_first v d)) = length d.
Proof.
  induction d as [|y d IH]; intros Hin; [by apply elem_of_nil in Hin|].
  simpl. destruct (Z.eqb_spec v y) as [->|Hne]; [done|].
  apply elem_of_cons in Hin as [?|Hin]; [done|].
  simpl. by rewrite IH.
Qed.

Lemma remove_first_subseteq (v : Z) (d : list Z) : remove_first v d ⊆ d.
Proof.
  induction d as [|y d IH]; simpl; [done|].
  destruct (Z.eqb v y); intros z Hz; [by right|].
  apply elem_of_cons in Hz as [->|Hz]; [left|right; auto].
Qed.

Lemma list_remove_Ok (x : string) (l : list string) :
  x ∈ l → ∃ l', list_remove x l = Ok l'.
Proof.
  induction l as [|y l IH]; intros Hin; [by apply elem_of_nil in Hin|].
  simpl. case_bool_decide as Hxy; [eauto|].
  apply elem_of_cons in Hin as [?|Hin]; [done|].
  destruct (IH Hin) as [l' ->]. simpl. eauto.
Qed.

Lemma list_remove_spec (x : string) (l l' : list string) :
  list_remove x l = Ok l' → NoDup l →
  NoDup l' ∧ ∀ y, y ∈ l' ↔ y ∈ l ∧ y ≠ x.
Proof.
  revert l'. induction l as [|z l IH]; intros l' H Hnd; [discriminate|].
  simpl in H. apply NoDup_cons in Hnd as [Hz Hnd].
  case_bool_decide as Hxz.
  - injection H as <-. subst x. split; [done|].
    intros y. rewrite elem_of_cons. split; [|tauto].
    intros Hy. split; [auto|]. intros ->. done.
  - apply bind_Ok in H as (l'' & Hrec & H). injection H as <-.
    destruct (IH _ Hrec Hnd) as [Hnd' Hmem]. split.
    + apply NoDup_cons. split; [|done]. rewrite Hmem. tauto.
    + intros y. rewrite !elem_of_cons, Hmem. split; [|tauto].
      intros [->|[? ?]]; [|tauto]. split; [auto|congruence].
Qed.

Lemma contains_value_true (x : Z) (b : gmap string Z) :
  contains_value x b = true ↔ ∃ k, b !! k = Some x.
Proof.
  unfold contains_value. rewrite existsb_exists. split.
  - intros (y & Hy & Heq). apply Z.eqb_eq in Heq as <-.
    apply list_elem_of_In, list_elem_of_fmap in Hy as ([k v] & -> & Hkv).
    exists k. by apply elem_of_map_to_list.
  - intros (k & Hk). exists x. split; [|apply Z.eqb_refl].
    apply list_elem_of_In, list_elem_of_fmap. exists (k, x).
    split; [done|]. by apply elem_of_map_to_list.
Qed.

Lemma contains_value_false (x : Z) (b : gmap string Z) :
  contains_value x b = false ↔ ∀ k, b !! k ≠ Some x.
Proof.
  rewrite <- not_true_iff_false, contains_value_true. split.
  - intros H k Hk. apply H. eauto.
  - intros H [k Hk]. by apply (H k).
Qed.

(** ** The candidate count *)

Lemma candidates_delete (m : gmap string (list Z)) (k : string) (d : list Z) :
  m !! k = Some d →
  candidates m = (length d + candidates (delete k m))%nat.
Proof.
  intros Hk. unfold candidates.
  apply (map_fold_delete_L (fun _ l acc => (length l + acc)%nat)); [|done].
  intros. lia.
Qed.

Lemma candidates_insert (m : gmap string (list Z)) (k : string) (d d' : list Z) :
  m !! k = Some d →
  (candidates (<[k := d']> m) + length d = candidates m + length d')%nat.
Proof.
  intros Hk. rewrite (candidates_delete m k d Hk).
  rewrite (candidates_delete (<[k := d']> m) k d') by apply lookup_insert_eq.
  rewrite delete_insert_eq. lia.
Qed.

(** ** [make_move] *)

Lemma holds_value_spec (b : gmap string Z) (value : Z) (cl : list string) :
  (∀ k, k ∈ cl → is_Some (b !! k)) →
  ∃ r, holds_value b value cl = Ok r ∧
       (r = true ↔ ∃ k, k ∈ cl ∧ b !! k = Some value).
Proof.
  induction cl as [|k cl IH]; intros Hall; simpl.
  - exists false. split; [done|]. split; [done|]. intros (k & Hk & _).
    by apply elem_of_nil in Hk.
  - destruct (Hall k) as [v Hv]; [left|].
    rewrite (getitem_Some _ _ _ Hv). simpl.
    destruct (Z.eqb_spec value v) as [->|Hne].
    + exists true. split; [done|]. split; [|done]. intros _. exists k.
      split; [left|done].
    + destruct IH as (r & Hr & Hiff).
      { intros k' Hk'. apply Hall. by right. }
      exists r. split; [done|]. rewrite Hiff. split.
      * intros (k' & Hk' & Hb). exists k'. split; [by right|done].
      * intros (k' & Hk' & Hb). apply elem_of_cons in Hk' as [->|Hk'].
        -- congruence.
        -- eauto.
Qed.

Lemma make_move_groups_spec (b : gmap string Z) (key : string) (value : Z)
    (cls : list (list string)) :
  (∀ cl k, cl ∈ cls → k ∈ cl → is_Some (b !! k)) →
  ∃ m, make_move_groups b key value cls = Ok m ∧
       ((m = -1 ∧ ∃ cl k, cl ∈ cls ∧ key ∈ cl ∧ k ∈ cl ∧ b !! k = Some value) ∨
        (m = value ∧ ∀ cl k, cl ∈ cls → key ∈ cl → k ∈ cl → b !! k ≠ Some value)).
Proof.
  induction cls as [|cl cls IH]; intros Hall; simpl.
  - exists value. split; [done|]. right. split; [done|].
    intros cl k Hcl. by apply elem_of_nil in Hcl.
  - destruct IH as (m & Hm & Hcases).
    { intros cl' k Hcl'. apply Hall. by right. }
    case_bool_decide as Hkey.
    + destruct (holds_value_spec b value cl) as (r & -> & Hiff).
      { intros k Hk. apply (Hall cl k); [left|done]. }
      simpl. destruct r.
      * exists (-1). split; [done|]. left. split; [done|].
        destruct (proj1 Hiff eq_refl) as (k & Hk & Hb).
        exists cl, k. repeat split; [left|done..].
      * exists m. split; [done|]. destruct Hcases as [[-> Hex]|[-> Hno]].
        -- left. split; [done|]. destruct Hex as (cl' & k & ? & ? & ? & ?).
           exists cl', k. repeat split; [by right|done..].
        -- right. split; [done|]. intros cl' k Hcl' Hkey' Hk Hb.
           apply elem_of_cons in Hcl' as [->|Hcl'].
           ++ assert (false = true) by (apply Hiff; eauto). discriminate.
           ++ by apply (Hno cl' k).
    + exists m. split; [done|]. destruct Hcases as [[-> Hex]|[-> Hno]].
      * left. split; [done|]. destruct Hex as (cl' & k & ? & ? & ? & ?).
        exists cl', k. repeat split; [by right|done..].
      * right. split; [done|]. intros cl' k Hcl' Hkey' Hk Hb.
        apply elem_of_cons in Hcl' as [->|Hcl']; [done|].
        by apply (Hno cl' k).
Qed.

(** ** Steps that keep the invariant *)

Lemma evolves_refl (s : Sudoku) : evolves s s.
Proof. split; [done| |done]. intros k d Hd. exists d. by split. Qed.

Lemma evolves_trans (s1 s2 s3 : Sudoku) :
  evolves s1 s2 → evolves s2 s3 → evolves s1 s3.
Proof.
  intros [F1 S1 C1] [F2 S2 C2]. split.
  - intros k Hk. rewrite F2, F1; [done..|].
    destruct (domain s2 !! k) as [d'|] eqn:E; [|done].
    destruct (S1 _ _ E) as (d & Hd & _). congruence.
  - intros k d3 H3. destruct (S2 _ _ H3) as (d2 & H2 & Hsub2 & Hlen2).
    destruct (S1 _ _ H2) as (d1 & H1 & Hsub1 & Hlen1).
    exists d1. split; [done|]. split; [set_solver|lia].
  - lia.
Qed.

Lemma steps_refl (s : Sudoku) : Inv s → steps s s.
Proof. intros. split; [done|apply evolves_refl|done]. Qed.

Lemma steps_trans (s1 s2 s3 : Sudoku) :
  steps s1 s2 → steps s2 s3 → steps s1 s3.
Proof.
  intros [I1 E1 C1] [I2 E2 C2].
  split; [done|by eapply evolves_trans|auto].
Qed.

(** one candidate of [key] deleted, at least two left *)
Lemma steps_shrink (s : Sudoku) (key : string) (d d' : list Z) :
  Inv s → domain s !! key = Some d → d' ⊆ d →
  (2 ≤ length d')%nat → (S (length d') = length d)%nat →
  let s1 := {| board := board s; guess_list := guess_list s;
               domain := <[key := d']> (domain s);
               unresolved := unresolved s |} in
  steps s s1 ∧ (candidates (domain s1) < candidates (domain s))%nat.
Proof.
  intros HI Hd Hsub Hlen2 Hlen s1. subst s1. simpl.
  pose proof (candidates_insert (domain s) key d d' Hd) as Hc.
  split; [|lia]. destruct HI as [Ik Ir Ie Iu In Ic]. split.
  - split; simpl; try done.
    + intros k Hk. apply Ie. rewrite lookup_insert in Hk.
      case_decide; [subst; eauto|done].
    + intros k. rewrite Iu, lookup_insert. case_decide; [|done].
      subst. split; eauto.
    + intros k d0. rewrite lookup_insert. case_decide; [|apply Ic].
      intros [= <-]. split; [done|]. destruct (Ic _ _ Hd) as [_ Hall].
      rewrite Forall_forall in Hall |- *. auto.
  - split; simpl.
    + done.
    + intros k d0. rewrite lookup_insert. case_decide as Hk.
      * intros [= <-]. subst k. exists d. split; [done|]. split; [done|lia].
      * intros H0. exists d0. by split.
    + lia.
  - intros HC k Hk. simpl in *. rewrite lookup_insert.
    case_decide; [eauto|]. by apply HC.
Qed.

(** the cell [key] leaves Domain and Unresolved with the value [m] *)
Lemma steps_commit (s : Sudoku) (key : string) (d : list Z) (m : Z)
    (u : list string) (gl : list (nat * string)) :
  Inv s → domain s !! key = Some d → m ≠ 0 → -1 ≤ m ≤ 9 →
  list_remove key (unresolved s) = Ok u →
  steps s {| board := <[key := m]> (board s); guess_list := gl;
             domain := delete key (domain s); unresolved := u |}.
Proof.
  intros HI Hd Hm0 Hm Hu. pose proof HI as [Ik Ir Ie Iu In Ic].
  destruct (list_remove_spec _ _ _ Hu In) as [Hnd Hmem].
  assert (Hkey : is_Some (board s !! key)) by (rewrite Ie; eauto).
  split.
  - split; simpl.
    + intros k. rewrite Ik, lookup_insert. case_decide; [|done].
      subst. split; eauto.
    + intros k v. rewrite lookup_insert. case_decide; [|apply Ir].
      intros [= <-]. done.
    + intros k. rewrite lookup_delete, lookup_insert.
      case_decide; [by intros [? ?]|apply Ie].
    + intros k. rewrite Hmem, Iu, lookup_delete. case_decide.
      * subst. split; [tauto|by intros [? ?]].
      * split; [tauto|]. intros ?. split; [done|congruence].
    + done.
    + intros k d0. rewrite lookup_delete. case_decide; [done|apply Ic].
  - split; simpl.
    + intros k Hk. rewrite lookup_insert_ne; [done|congruence].
    + intros k d0. rewrite lookup_delete. case_decide; [done|].
      intros H0. exists d0. by split.
    + rewrite (candidates_delete _ _ _ Hd). lia.
  - intros HC k. simpl. rewrite lookup_insert, lookup_delete.
    case_decide; [congruence|]. apply HC.
Qed.

(** ** [make_moves] *)

Lemma body_skip_empty (key k : string) (x : mm_vars) :
  board (mm_state x) !! k = Some 0 → make_moves_body key k x = Ok (Go x).
Proof. intros H. unfold make_moves_body. by rewrite (getitem_Some _ _ _ H). Qed.

Lemma body_skip_absent (key k : string) (x : mm_vars) (v : Z) (d : list Z) :
  board (mm_state x) !! k = Some v → domain (mm_state x) !! key = Some d →
  v ∉ d → make_moves_body key k x = Ok (Go x).
Proof.
  intros Hv Hd Hnin. unfold make_moves_body.
  rewrite (getitem_Some _ _ _ Hv). simpl. destruct (Z.eqb v 0); [done|].
  rewrite (getitem_Some _ _ _ Hd). simpl. by rewrite bool_decide_eq_false_2.
Qed.

Lemma body_delete (key k : string) (x : mm_vars) (v : Z) (d : list Z) :
  board (mm_state x) !! k = Some v → v ≠ 0 →
  domain (mm_state x) !! key = Some d → v ∈ d →
  (2 ≤ length (remove_first v d))%nat →
  make_moves_body key k x =
    Ok (Go {| mm_state :=
                {| board := board (mm_state x);
                   guess_list := guess_list (mm_state x);
                   domain := <[key := remove_first v d]> (domain (mm_state x));
                   unresolved := unresolved (mm_state x) |};
              continue_loop := true; has_changes := true |}).
Proof.
  intros Hv Hv0 Hd Hin Hlen. unfold make_moves_body.
  rewrite (getitem_Some _ _ _ Hv). simpl.
  destruct (Z.eqb_spec v 0); [done|].
  rewrite (getitem_Some _ _ _ Hd). simpl. rewrite bool_decide_eq_true_2 by done.
  destruct (remove_first v d) as [|c [|c' l]]; simpl in Hlen; [lia|lia|done].
Qed.

Lemma body_commit (key k : string) (x : mm_vars) (v c : Z) (d : list Z) :
  board (mm_state x) !! k = Some v → v ≠ 0 →
  domain (mm_state x) !! key = Some d → v ∈ d →
  remove_first v d = [c] →
  Forall (Forall (fun k' => is_Some (board (mm_state x) !! k'))) all_groups →
  key ∈ unresolved (mm_state x) →
  ∃ m u,
    make_moves_body key k x =
      Ok (Ret ({| board := <[key := m]> (board (mm_state x));
                  guess_list := guess_list (mm_state x);
                  domain := delete key (domain (mm_state x));
                  unresolved := u |}, false)) ∧
    list_remove key (unresolved (mm_state x)) = Ok u ∧
    ((m = -1 ∧ ∃ cl k', cl ∈ all_groups ∧ key ∈ cl ∧ k' ∈ cl ∧
                        board (mm_state x) !! k' = Some c) ∨
     (m = c ∧ ∀ cl k', cl ∈ all_groups → key ∈ cl → k' ∈ cl →
                       board (mm_state x) !! k' ≠ Some c)).
Proof.
  intros Hv Hv0 Hd Hin Hrem Hall Hkey.
  destruct (make_move_groups_spec (board (mm_state x)) key c all_groups)
    as (m & Hm & Hcases).
  { intros cl k' Hcl Hk'. rewrite Forall_forall in Hall.
    specialize (Hall _ Hcl). rewrite Forall_forall in Hall. auto. }
  destruct (list_remove_Ok _ _ Hkey) as [u Hu].
  exists m, u. split; [|by split].
  unfold make_moves_body. rewrite (getitem_Some _ _ _ Hv). simpl.
  destruct (Z.eqb_spec v 0); [done|].
  rewrite (getitem_Some _ _ _ Hd). simpl. rewrite bool_decide_eq_true_2 by done.
  rewrite Hrem. unfold make_move. cbn [board]. rewrite Hm.
  cbn [mbind result_bind unresolved]. rewrite Hu.
  cbn [mbind result_bind board domain guess_list]. by rewrite delete_insert_eq.
Qed.

Lemma Inv_lookups (s : Sudoku) :
  Inv s → Forall (Forall (fun k' => is_Some (board s !! k'))) all_groups.
Proof.
  intros HI. apply Forall_forall. intros cl Hcl. apply Forall_forall.
  intros k Hk. apply (inv_keys s HI). by eapply groups_in_keys.
Qed.

Lemma make_moves_body_ok (key k : string) (x : mm_vars) :
  Inv (mm_state x) → key ∈ unresolved (mm_state x) → k ∈ keys →
  ∃ r, make_moves_body key k x = Ok r ∧
       match r with
       | Go x' => steps (mm_state x) (mm_state x') ∧
                  key ∈ unresolved (mm_state x') ∧ moved key x x'
       | Ret (s', b) => steps (mm_state x) s' ∧ b = false
       end.
Proof.
  intros HI Hkey Hk.
  destruct (proj1 (inv_keys _ HI k) Hk) as [v Hv].
  destruct (proj1 (inv_unres _ HI key) Hkey) as [d Hd].
  destruct (decide (v = 0)) as [->|Hv0].
  { exists (Go x). rewrite body_skip_empty by done.
    split; [done|]. split; [by apply steps_refl|]. split; [done|by left]. }
  destruct (decide (v ∈ d)) as [Hin|Hnin]; cycle 1.
  { exists (Go x). rewrite (body_skip_absent _ _ _ _ _ Hv Hd Hnin).
    split; [done|]. split; [by apply steps_refl|]. split; [done|by left]. }
  pose proof (remove_first_length _ _ Hin) as Hlen.
  pose proof (remove_first_subseteq v d) as Hsub.
  destruct (inv_cand _ HI _ _ Hd) as [Hd2 Hdr].
  destruct (decide (2 ≤ length (remove_first v d))%nat) as [Hge|Hlt].
  - eexists. split; [by apply body_delete|]. simpl.
    destruct (steps_shrink _ _ _ _ HI Hd Hsub Hge Hlen) as [Hst Hc].
    split; [done|]. split; [done|]. right. repeat split; [|done].
    unfold klen. simpl. rewrite lookup_insert_eq, Hd. simpl. lia.
  - destruct (remove_first v d) as [|c [|c' l]] eqn:Hrem; simpl in *; [lia| |lia].
    destruct (body_commit key k x v c d Hv Hv0 Hd Hin Hrem (Inv_lookups _ HI) Hkey)
      as (m & u & -> & Hu & Hcases).
    eexists. split; [done|]. simpl. split; [|done].
    assert (Hc : 1 ≤ c ≤ 9).
    { rewrite Forall_forall in Hdr. apply Hdr, Hsub. left. }
    apply (steps_commit _ _ d); [done|done| | |done].
    + destruct Hcases as [[-> _]|[-> _]]; lia.
    + destruct Hcases as [[-> _]|[-> _]]; lia.
Qed.

Lemma moved_trans (key : string) (x1 x2 x3 : mm_vars) :
  steps (mm_state x2) (mm_state x3) →
  moved key x1 x2 → moved key x2 x3 → moved key x1 x3.
Proof.
  intros Hst [->|(C2 & H2 & L2 & N2)] [->|(C3 & H3 & L3 & N3)].
  - by left.
  - right. by repeat split.
  - right. by repeat split.
  - right. repeat split; [done|done|lia|lia].
Qed.

Lemma make_moves_for_ok (key : string) (cl : list string) (x : mm_vars) :
  Inv (mm_state x) → key ∈ unresolved (mm_state x) →
  (∀ k, k ∈ cl → k ∈ keys) →
  ∃ r, make_moves_for key cl x = Ok r ∧
       match r with
       | Go x' => steps (mm_state x) (mm_state x') ∧
                  key ∈ unresolved (mm_state x') ∧ moved key x x'
       | Ret (s', b) => steps (mm_state x) s' ∧ b = false
       end.
Proof.
  revert x. induction cl as [|k cl IH]; intros x HI Hkey Hcl.
  { exists (Go x). split; [done|]. split; [by apply steps_refl|].
    split; [done|by left]. }
  cbn [make_moves_for].
  destruct (make_moves_body_ok key k x HI Hkey) as (r & -> & Hr).
  { apply Hcl. left. }
  cbn [mbind result_bind]. destruct r as [x1|[s1 b1]].
  - destruct Hr as (Hst & Hkey1 & Hmv).
    destruct (IH x1) as (r & -> & Hr); [apply Hst|done| |].
    { intros k' Hk'. apply Hcl. by right. }
    exists r. split; [done|]. destruct r as [x2|[s2 b2]].
    + destruct Hr as (Hst2 & Hkey2 & Hmv2).
      split; [by eapply steps_trans|]. split; [done|].
      by eapply moved_trans.
    + destruct Hr as [Hst2 ->]. split; [by eapply steps_trans|done].
  - exists (Ret (s1, b1)). by split.
Qed.

Lemma make_moves_while_ok (fuel : nat) (key : string) (cl : list string)
    (s : Sudoku) (hc : bool) :
  Inv s → key ∈ unresolved s → (∀ k, k ∈ cl → k ∈ keys) →
  (klen key s < fuel)%nat →
  ∃ s' b, make_moves_while fuel key cl s hc = Ok (s', b) ∧ steps s s' ∧
          (b = true → hc = true ∨
             (candidates (domain s') < candidates (domain s))%nat).
Proof.
  revert s hc. induction fuel as [|n IH]; intros s hc HI Hkey Hcl Hfuel; [lia|].
  cbn [make_moves_while].
  destruct (make_moves_for_ok key cl
              {| mm_state := s; continue_loop := false; has_changes := hc |})
    as (r & -> & Hr); [done..|].
  cbn [mbind result_bind]. destruct r as [x1|[s1 b1]].
  - cbn [mm_state] in Hr. destruct Hr as (Hst & Hkey1 & Hmv).
    destruct (continue_loop x1) eqn:Hcont.
    + destruct Hmv as [->|(_ & Hhc & Hlen & Hcand)]; [done|].
      cbn [mm_state] in Hlen, Hcand.
      destruct (IH (mm_state x1) (has_changes x1)) as (s' & b & -> & Hst' & Hb);
        [apply Hst|done|done|lia|].
      exists s', b. split; [done|]. split; [by eapply steps_trans|].
      intros _. right. pose proof (ev_cand _ _ (st_ev _ _ Hst')). lia.
    + exists (mm_state x1), (has_changes x1). split; [done|]. split; [done|].
      destruct Hmv as [->|(Hc & _)]; [by left|congruence].
  - destruct Hr as [Hst ->]. exists s1, false.
    split; [done|]. split; [done|]. intros; discriminate.
Qed.

Lemma make_moves_ok (key : string) (cl : list string) (s : Sudoku) :
  Inv s → key ∈ unresolved s → (∀ k, k ∈ cl → k ∈ keys) →
  ∃ s' b, make_moves key cl s = Ok (s', b) ∧ steps s s' ∧
          (b = true → (candidates (domain s') < candidates (domain s))%nat).
Proof.
  intros HI Hkey Hcl. unfold make_moves.
  destruct (make_moves_while_ok (S (klen key s)) key cl s false HI Hkey Hcl)
    as (s' & b & H & Hst & Hb); [lia|].
  exists s', b. split; [exact H|]. split; [done|].
  intros Hbt. by destruct (Hb Hbt).
Qed.

(** ** [ac3] *)

Lemma ac3_keys_ok (cl ks : list string) (s : Sudoku) (hc : bool) :
  Inv s → (∀ k, k ∈ cl → k ∈ keys) →
  ∃ s' b, ac3_keys cl ks s hc = Ok (s', b) ∧ steps s s' ∧
          (b = true → hc = true ∨
             (candidates (domain s') < candidates (domain s))%nat).
Proof.
  revert s hc. induction ks as [|key ks IH]; intros s hc HI Hcl.
  { exists s, hc. split; [done|]. split; [by apply steps_refl|auto]. }
  cbn [ac3_keys]. case_bool_decide as Hkey; [|by apply IH].
  destruct hc.
  { destruct (IH s true HI Hcl) as (s' & b & -> & Hst & _).
    exists s', b. split; [done|]. split; [done|]. auto. }
  destruct (make_moves_ok key cl s HI Hkey Hcl) as (s1 & b1 & -> & Hst1 & Hb1).
  cbn [mbind result_bind].
  destruct (IH s1 b1) as (s' & b & -> & Hst & Hb); [apply Hst1|done|].
  exists s', b. split; [done|]. split; [by eapply steps_trans|].
  intros Hbt. right. pose proof (ev_cand _ _ (st_ev _ _ Hst)).
  pose proof (ev_cand _ _ (st_ev _ _ Hst1)).
  destruct (Hb Hbt) as [->|?]; [|lia]. specialize (Hb1 eq_refl). lia.
Qed.

Lemma ac3_groups_ok (cls : list (list string)) (s : Sudoku) (hc : bool) :
  Inv s → (∀ cl k, cl ∈ cls → k ∈ cl → k ∈ keys) →
  ∃ s' b, ac3_groups cls s hc = Ok (s', b) ∧ steps s s' ∧
          (b = true → hc = true ∨
             (candidates (domain s') < candidates (domain s))%nat).
Proof.
  revert s hc. induction cls as [|cl cls IH]; intros s hc HI Hcls.
  { exists s, hc. split; [done|]. split; [by apply steps_refl|auto]. }
  cbn [ac3_groups].
  destruct (ac3_keys_ok cl cl s hc HI) as (s1 & b1 & -> & Hst1 & Hb1).
  { intros k. apply Hcls. left. }
  cbn [mbind result_bind].
  destruct (IH s1 b1) as (s' & b & -> & Hst & Hb); [apply Hst1| |].
  { intros cl' k Hcl'. apply Hcls. by right. }
  exists s', b. split; [done|]. split; [by eapply steps_trans|].
  intros Hbt. pose proof (ev_cand _ _ (st_ev _ _ Hst)).
  pose proof (ev_cand _ _ (st_ev _ _ Hst1)).
  destruct (Hb Hbt) as [->|?]; [|right; lia].
  destruct (Hb1 eq_refl) as [?|?]; [by left|right; lia].
Qed.

Lemma sweep_ok (s : Sudoku) :
  Inv s →
  ∃ s' b, sweep s = Ok (s', b) ∧ steps s s' ∧
          (b = true → (candidates (domain s') < candidates (domain s))%nat).
Proof.
  intros HI. unfold sweep.
  destruct (ac3_groups_ok all_groups s false HI) as (s' & b & H & Hst & Hb).
  { intros cl k. apply groups_in_keys. }
  exists s', b. split; [exact H|]. split; [done|].
  intros Hbt. by destruct (Hb Hbt).
Qed.

Lemma ac3_while_ok (fuel : nat) (s : Sudoku) :
  Inv s → (candidates (domain s) < fuel)%nat →
  ∃ s', ac3_while fuel s = Ok s' ∧ steps s s'.
Proof.
  revert s. induction fuel as [|n IH]; intros s HI Hfuel; [lia|].
  cbn [ac3_while]. destruct (sweep_ok s HI) as (s1 & b & -> & Hst & Hb).
  cbn [mbind result_bind]. destruct b.
  - specialize (Hb eq_refl).
    destruct (IH s1) as (s' & -> & Hst'); [apply Hst|lia|].
    exists s'. split; [done|by eapply steps_trans].
  - by exists s1.
Qed.

Lemma ac3_ok (s : Sudoku) : Inv s → ∃ s', ac3 s = Ok s' ∧ steps s s'.
Proof. intros HI. apply ac3_while_ok; [done|lia]. Qed.

(** ** The order of the guess list *)

Lemma guess_leb_total (a b : nat * string) :
  guess_leb a b = true ∨ guess_leb b a = true.
Proof.
  unfold guess_leb. destruct a as [n1 k1], b as [n2 k2]. simpl.
  destruct (Nat.ltb_spec n1 n2); [by left|].
  destruct (Nat.ltb_spec n2 n1); [by right|].
  assert (n1 = n2) as -> by lia. rewrite Nat.eqb_refl. simpl.
  apply String.leb_total.
Qed.

Lemma guess_leb_trans (a b c : nat * string) :
  guess_leb a b = true → guess_leb b c = true → guess_leb a c = true.
Proof.
  unfold guess_leb. destruct a as [n1 k1], b as [n2 k2], c as [n3 k3]. simpl.
  rewrite !orb_true_iff, !andb_true_iff, !Nat.ltb_lt, !Nat.eqb_eq.
  intros [H1|[-> H1]] [H2|[-> H2]]; [left; lia|by left|by left|].
  right. split; [done|]. apply Is_true_true.
  apply Is_true_true in H1, H2.
  exact (transitivity (R := String.le) H1 H2).
Qed.

Lemma guess_leb_antisym (a b : nat * string) :
  guess_leb a b = true → guess_leb b a = true → a = b.
Proof.
  unfold guess_leb. destruct a as [n1 k1], b as [n2 k2]. simpl.
  rewrite !orb_true_iff, !andb_true_iff, !Nat.ltb_lt, !Nat.eqb_eq.
  intros [H1|[-> H1]] [H2|[H2 H3]]; try lia.
  f_equal. by apply String.leb_antisym.
Qed.

Lemma insert_guess_elem (a x : nat * string) (l : list (nat * string)) :
  x ∈ insert_guess a l ↔ x = a ∨ x ∈ l.
Proof.
  induction l as [|b l IH]; simpl.
  - rewrite list_elem_of_singleton. split; [auto|]. intros [?|H]; [done|].
    by apply elem_of_nil in H.
  - destruct (guess_leb a b); rewrite !elem_of_cons; [done|].
    rewrite IH. tauto.
Qed.

Lemma sort_guesses_elem (x : nat * string) (l : list (nat * string)) :
  x ∈ sort_guesses l ↔ x ∈ l.
Proof.
  induction l as [|a l IH]; [done|]. unfold sort_guesses in *. simpl.
  rewrite insert_guess_elem, elem_of_cons, IH. done.
Qed.

Lemma insert_guess_least (a : nat * string) (l : list (nat * string)) :
  least_first l → least_first (insert_guess a l).
Proof.
  destruct l as [|b l]; simpl.
  - intros _ x Hx. apply list_elem_of_singleton in Hx as ->.
    by destruct (guess_leb_total a a).
  - intros Hb. destruct (guess_leb a b) eqn:Hab.
    + intros x Hx. apply elem_of_cons in Hx as [->|Hx].
      * by destruct (guess_leb_total a a).
      * eapply guess_leb_trans; [exact Hab|by apply Hb].
    + intros x Hx. apply elem_of_cons in Hx as [->|Hx].
      * apply Hb. left.
      * apply insert_guess_elem in Hx as [->|Hx].
        -- destruct (guess_leb_total a b); congruence.
        -- apply Hb. by right.
Qed.

Lemma sort_guesses_least (l : list (nat * string)) : least_first (sort_guesses l).
Proof.
  induction l as [|a l IH]; [done|]. by apply insert_guess_least.
Qed.

(** ** [expand_guess_tree]: the choice of the cell *)

Lemma guess_elem (m : gmap string (list Z)) (n : nat) (k : string) :
  (n, k) ∈ (fun kv : string * list Z => (length kv.2, kv.1)) <$> map_to_list m
  ↔ ∃ d, m !! k = Some d ∧ n = length d.
Proof.
  rewrite list_elem_of_fmap. split.
  - intros ([k' d] & [= -> ->] & H). apply elem_of_map_to_list in H. eauto.
  - intros (d & Hd & ->). exists (k, d). split; [done|].
    by apply elem_of_map_to_list.
Qed.

Lemma pick_spec (s : Sudoku) (key : string) (values_list : list Z) (s1 : Sudoku) :
  pick s = Ok (key, values_list, s1) →
  domain s !! key = Some values_list ∧
  (∀ k d, domain s !! k = Some d →
          guess_leb (length values_list, key) (length d, k) = true) ∧
  board s1 = board s ∧
  domain s1 = delete key (domain s) ∧
  list_remove key (unresolved s) = Ok (unresolved s1).
Proof.
  unfold pick. intros H.
  pose proof (sort_guesses_least
    ((fun kv : string * list Z => (length kv.2, kv.1)) <$> map_to_list (domain s)))
    as Hleast.
  pose proof (fun x => sort_guesses_elem x
    ((fun kv : string * list Z => (length kv.2, kv.1)) <$> map_to_list (domain s)))
    as Helem.
  destruct (sort_guesses _) as [|[n k0] gl']; [discriminate|].
  cbn [snd] in H. apply bind_Ok in H as (vals & Hvals & H).
  apply bind_Ok in H as (u & Hu & H). injection H as <- <- <-.
  apply getitem_Ok in Hvals. cbn [board domain unresolved].
  split; [done|]. split; [|done].
  assert (Hn : n = length vals).
  { assert (Hin : (n, k0) ∈ (n, k0) :: gl') by left.
    apply Helem, guess_elem in Hin as (d & Hd & ->). congruence. }
  subst n. intros k d Hd. apply Hleast, Helem, guess_elem. eauto.
Qed.

Lemma pick_ok (s : Sudoku) (k0 : string) :
  Inv s → is_Some (domain s !! k0) →
  ∃ key values_list s1, pick s = Ok (key, values_list, s1).
Proof.
  intros HI [d0 Hd0]. unfold pick.
  pose proof (fun x => sort_guesses_elem x
    ((fun kv : string * list Z => (length kv.2, kv.1)) <$> map_to_list (domain s)))
    as Helem.
  destruct (sort_guesses _) as [|[n k] gl'].
  { assert (Hin : (length d0, k0) ∈ @nil (nat * string)).
    { apply Helem, guess_elem. eauto. }
    by apply elem_of_nil in Hin. }
  assert (Hin : (n, k) ∈ (n, k) :: gl') by left.
  apply Helem, guess_elem in Hin as (d & Hd & ->). cbn [snd].
  rewrite (getitem_Some _ _ _ Hd). cbn [mbind result_bind].
  destruct (list_remove_Ok k (unresolved s)) as [u ->].
  { apply (inv_unres _ HI). eauto. }
  cbn [mbind result_bind]. eauto.
Qed.

(** ** [is_solved] *)

Lemma distinct_values_ok (b : gmap string Z) (cl : list string) (seen : gset Z) :
  (∀ k, k ∈ cl → is_Some (b !! k)) →
  ∃ r, distinct_values b cl seen = Ok r.
Proof.
  revert seen. induction cl as [|k cl IH]; intros seen Hall; [by eexists|].
  cbn [distinct_values]. destruct (Hall k) as [v Hv]; [left|].
  rewrite (getitem_Some _ _ _ Hv). cbn [mbind result_bind].
  case_bool_decide; [by eexists|]. apply IH. intros k' Hk'. apply Hall. by right.
Qed.

Lemma distinct_values_true (b : gmap string Z) (cl : list string) (seen : gset Z) :
  distinct_values b cl seen = Ok true →
  ∃ vs, Forall2 (fun k v => b !! k = Some v) cl vs ∧ NoDup vs ∧
        ∀ v, v ∈ vs → v ∉ seen.
Proof.
  revert seen. induction cl as [|k cl IH]; intros seen H.
  { exists []. split; [constructor|]. split; [constructor|].
    intros v Hv. by apply elem_of_nil in Hv. }
  cbn [distinct_values] in H. apply bind_Ok in H as (v & Hv & H).
  apply getitem_Ok in Hv. case_bool_decide as Hseen; [discriminate|].
  destruct (IH _ H) as (vs & Hvs & Hnd & Hfresh).
  exists (v :: vs). split; [by constructor|]. split.
  - apply NoDup_cons. split; [|done]. intros Hin.
    apply Hfresh in Hin. set_solver.
  - intros v' Hv'. apply elem_of_cons in Hv' as [->|Hv']; [done|].
    apply Hfresh in Hv'. set_solver.
Qed.

Lemma all_distinct_ok (b : gmap string Z) (cls : list (list string)) :
  (∀ cl k, cl ∈ cls → k ∈ cl → is_Some (b !! k)) →
  ∃ r, all_distinct b cls = Ok r.
Proof.
  induction cls as [|cl cls IH]; intros Hall; [by eexists|].
  cbn [all_distinct]. destruct (distinct_values_ok b cl ∅) as [r ->].
  { intros k. apply Hall. left. }
  cbn [mbind result_bind]. destruct r; [|by eexists].
  apply IH. intros cl' k Hcl'. apply Hall. by right.
Qed.

Lemma all_distinct_true (b : gmap string Z) (cls : list (list string)) (cl : list string) :
  all_distinct b cls = Ok true → cl ∈ cls →
  ∃ vs, Forall2 (fun k v => b !! k = Some v) cl vs ∧ NoDup vs.
Proof.
  induction cls as [|cl0 cls IH]; intros H Hcl; [by apply elem_of_nil in Hcl|].
  cbn [all_distinct] in H. apply bind_Ok in H as (r & Hr & H).
  destruct r; [|discriminate].
  apply elem_of_cons in Hcl as [->|Hcl]; [|by apply IH].
  destruct (distinct_values_true _ _ _ Hr) as (vs & ? & ? & _). eauto.
Qed.

(** nine distinct digits are all of them *)
Lemma nine_distinct (vs : list Z) (d : Z) :
  NoDup vs → length vs = 9%nat → Forall (fun v => 1 ≤ v ≤ 9) vs →
  1 ≤ d ≤ 9 → d ∈ vs.
Proof.
  intros Hnd Hlen Hall Hd.
  assert (Hsub : vs ⊆+ digits).
  { apply NoDup_submseteq; [done|]. intros x Hx.
    rewrite Forall_forall in Hall. specialize (Hall _ Hx).
    unfold digits. rewrite !elem_of_cons.
    assert (x = 1 ∨ x = 2 ∨ x = 3 ∨ x = 4 ∨ x = 5 ∨ x = 6 ∨ x = 7 ∨ x = 8 ∨ x = 9)
      by lia.
    tauto. }
  apply submseteq_length_Permutation in Hsub; [|by rewrite Hlen].
  rewrite Hsub. unfold digits. rewrite !elem_of_cons.
  assert (d = 1 ∨ d = 2 ∨ d = 3 ∨ d = 4 ∨ d = 5 ∨ d = 6 ∨ d = 7 ∨ d = 8 ∨ d = 9)
    by lia.
  tauto.
Qed.

Lemma holders_count (b : gmap string Z) (cl : list string) (vs : list Z) (d : Z) :
  Forall2 (fun k v => b !! k = Some v) cl vs → NoDup vs →
  length (filter (fun k => b !! k = Some d) cl) = if decide (d ∈ vs) then 1%nat else 0%nat.
Proof.
  induction 1 as [|k v cl vs Hkv Hrest IH]; intros Hnd.
  { rewrite decide_False by apply not_elem_of_nil. done. }
  apply NoDup_cons in Hnd as [Hv Hnd]. specialize (IH Hnd).
  rewrite filter_cons. destruct (decide (b !! k = Some d)) as [Hd|Hd].
  - assert (v = d) as -> by congruence. simpl. rewrite IH.
    rewrite decide_False by done. rewrite decide_True by left. done.
  - rewrite IH. case_decide as Hin.
    + rewrite decide_True; [done|]. by right.
    + rewrite decide_False; [done|]. intros Hin'.
      apply elem_of_cons in Hin' as [->|?]; [congruence|done].
Qed.

Lemma is_solved_valid (s : Sudoku) :
  (∀ k, k ∈ keys ↔ is_Some (board s !! k)) →
  (∀ k v, board s !! k = Some v → -1 ≤ v ≤ 9) →
  is_solved s = Ok true → valid_board (board s).
Proof.
  intros Hkeys Hrange H. unfold is_solved, is_incomplete in H.
  destruct (contains_value 0 (board s)) eqn:H0; [discriminate|].
  destruct (contains_value (-1) (board s)) eqn:H1; [discriminate|].
  cbn [orb] in H.
  rewrite contains_value_false in H0, H1.
  assert (Hdigit : ∀ k v, board s !! k = Some v → 1 ≤ v ≤ 9).
  { intros k v Hv. pose proof (Hrange _ _ Hv). pose proof (H0 k). pose proof (H1 k).
    assert (v ≠ 0) by congruence. assert (v ≠ -1) by congruence. lia. }
  split.
  - intros k Hk. destruct (proj1 (Hkeys k) Hk) as [v Hv]. exists v.
    specialize (Hdigit _ _ Hv). split; [done|lia].
  - intros cl d Hcl Hd.
    destruct (all_distinct_true _ _ _ H Hcl) as (vs & Hvs & Hnd).
    rewrite (holders_count _ _ _ _ Hvs Hnd). rewrite decide_True; [done|].
    apply nine_distinct; [done| |  |done].
    + rewrite <- (Forall2_length _ _ _ Hvs). by apply groups_length.
    + apply Forall_forall. intros v Hv.
      apply list_elem_of_lookup in Hv as [i Hi].
      destruct (Forall2_lookup_r _ _ _ _ _ Hvs Hi) as (k & _ & Hk). eauto.
Qed.

Lemma is_solved_ok (s : Sudoku) : Inv s → ∃ r, is_solved s = Ok r.
Proof.
  intros HI. unfold is_solved.
  destruct (is_incomplete s || contains_value (-1) (board s)); [by eexists|].
  apply all_distinct_ok. intros cl k Hcl Hk.
  apply (inv_keys _ HI). by eapply groups_in_keys.
Qed.

(** a board holding the sentinel is never solved *)
Lemma is_solved_sentinel (s : Sudoku) (k : string) (r : bool) :
  board s !! k = Some (-1) → is_solved s = Ok r → r = false.
Proof.
  intros Hk. unfold is_solved.
  assert (contains_value (-1) (board s) = true) as ->
    by (apply contains_value_true; eauto).
  rewrite orb_true_r. congruence.
Qed.

Lemma classify_ok (s : Sudoku) : Inv s → ∃ v, classify s = Ok v.
Proof.
  intros HI. unfold classify. destruct (is_solved_ok s HI) as [r ->].
  cbn [mbind result_bind]. destruct r; [by eexists|].
  destruct (is_incomplete s); by eexists.
Qed.

Lemma classify_Solved (s : Sudoku) :
  classify s = Ok Solved ↔ is_solved s = Ok true.
Proof.
  unfold classify. destruct (is_solved s) as [ [ | ] | e | ]; cbn [mbind result_bind];
    try (split; congruence).
  destruct (is_incomplete s); split; congruence.
Qed.

Lemma classify_Incomplete (s : Sudoku) :
  classify s = Ok Incomplete ↔ is_solved s = Ok false ∧ is_incomplete s = true.
Proof.
  unfold classify. destruct (is_solved s) as [ [ | ] | e | ]; cbn [mbind result_bind];
    try (split; [intros ?; discriminate | intros [? ?]; congruence]).
  destruct (is_incomplete s);
    (split; [intros ?; first [discriminate | by split] | intros [? ?]; congruence]).
Qed.

Lemma classify_Invalid (s : Sudoku) :
  classify s = Ok Invalid ↔ is_solved s = Ok false ∧ is_incomplete s = false.
Proof.
  unfold classify. destruct (is_solved s) as [ [ | ] | e | ]; cbn [mbind result_bind];
    try (split; [intros ?; discriminate | intros [? ?]; congruence]).
  destruct (is_incomplete s);
    (split; [intros ?; first [discriminate | by split] | intros [? ?]; congruence]).
Qed.

(** ** [__init__] *)

Lemma well_formed_spec (b : gmap string Z) :
  well_formed b = true →
  (∀ k, k ∈ keys ↔ is_Some (b !! k)) ∧ (∀ k v, b !! k = Some v → 0 ≤ v ≤ 9).
Proof.
  unfold well_formed. rewrite andb_true_iff, !forallb_forall.
  intros [Hentries Hkeys].
  assert (He : ∀ k v, b !! k = Some v → k ∈ keys ∧ 0 ≤ v ≤ 9).
  { intros k v Hkv. specialize (Hentries (k, v)). cbn [fst snd] in Hentries.
    rewrite !andb_true_iff, bool_decide_eq_true, !Z.leb_le in Hentries.
    destruct Hentries as [[? ?] ?]; [|done].
    by apply list_elem_of_In, elem_of_map_to_list. }
  split.
  - intros k. split.
    + intros Hk. apply list_elem_of_In, Hkeys in Hk.
      by apply bool_decide_eq_true in Hk.
    + intros [v Hv]. by destruct (He _ _ Hv).
  - intros k v Hv. by destruct (He _ _ Hv).
Qed.

Lemma init_domain_ok (b : gmap string Z) (ks : list string)
    (d : gmap string (list Z)) (u : list string) :
  (∀ k, k ∈ ks → is_Some (b !! k)) →
  ∃ d', init_domain b ks d u =
          Ok (d', (u ++ filter (fun k => b !! k = Some 0) ks)%list) ∧
        ∀ k, d' !! k = if decide (k ∈ ks ∧ b !! k = Some 0) then Some digits
                       else d !! k.
Proof.
  revert d u. induction ks as [|loc ks IH]; intros d u Hall.
  { exists d. cbn [init_domain]. rewrite filter_nil, app_nil_r. split; [done|].
    intros k. rewrite decide_False; [done|]. intros [H _]. by apply elem_of_nil in H. }
  cbn [init_domain]. destruct (Hall loc) as [v Hv]; [left|].
  rewrite (getitem_Some _ _ _ Hv). cbn [mbind result_bind]. rewrite filter_cons.
  assert (Hall' : ∀ k, k ∈ ks → is_Some (b !! k)) by (intros; apply Hall; by right).
  destruct (Z.eqb_spec v 0) as [->|Hv0].
  - destruct (IH (<[loc := digits]> d) (u ++ [loc])%list Hall') as (d' & -> & Hd').
    exists d'. rewrite decide_True by done. rewrite <- app_assoc. split; [done|].
    intros k. rewrite Hd'. destruct (decide (k ∈ ks ∧ b !! k = Some 0)) as [[? ?]|Hn].
    + rewrite decide_True; [done|]. split; [by right|done].
    + rewrite lookup_insert. destruct (decide (loc = k)) as [->|Hne].
      * rewrite decide_True; [done|]. split; [left|done].
      * rewrite decide_False; [done|]. intros [Hin ?].
        apply elem_of_cons in Hin as [->|?]; [done|]. by apply Hn.
  - destruct (IH d u Hall') as (d' & -> & Hd').
    exists d'. rewrite decide_False by congruence. split; [done|].
    intros k. rewrite Hd'. destruct (decide (k ∈ ks ∧ b !! k = Some 0)) as [[? ?]|Hn].
    + rewrite decide_True; [done|]. split; [by right|done].
    + rewrite decide_False; [done|]. intros [Hin ?].
      apply elem_of_cons in Hin as [->|?]; [congruence|]. by apply Hn.
Qed.

Lemma init_ok (b : gmap string Z) :
  well_formed b = true →
  ∃ s, init b = Ok s ∧ board s = b ∧ Inv s ∧ Complete s.
Proof.
  intros Hwf. destruct (well_formed_spec b Hwf) as [Hkeys Hrange].
  unfold init. destruct (init_domain_ok b keys ∅ []) as (d & -> & Hd).
  { intros k. apply Hkeys. }
  cbn [mbind result_bind]. eexists. split; [done|]. cbn [app].
  assert (Hdom : ∀ k, is_Some (d !! k) ↔ b !! k = Some 0).
  { intros k. rewrite Hd. case_decide as H.
    - split; [tauto|eauto].
    - rewrite lookup_empty. split; [by intros [? ?]|].
      intros H0. exfalso. apply H. split; [|done]. apply Hkeys. eauto. }
  split; [done|]. split; [split; cbn [board domain unresolved]|].
  - done.
  - intros k v Hv. specialize (Hrange _ _ Hv). lia.
  - intros k. apply Hdom.
  - intros k. rewrite list_elem_of_filter, Hdom. split; [tauto|].
    intros H0. split; [done|]. apply Hkeys. eauto.
  - apply NoDup_filter, keys_NoDup.
  - intros k d0. rewrite Hd. case_decide; [|by rewrite lookup_empty].
    intros [= <-]. split; [unfold digits; simpl; lia|].
    unfold digits. repeat constructor; lia.
  - intros k Hk. cbn [board domain] in *. by apply Hdom.
Qed.

(** ** The search *)

Lemma evolves_size (s s' : Sudoku) :
  evolves s s' → (size (domain s') ≤ size (domain s))%nat.
Proof.
  intros Hev. rewrite <- !(size_dom (D := gset string)). apply subseteq_size.
  intros k. rewrite !elem_of_dom. intros [d' Hd'].
  destruct (ev_shrink _ _ Hev _ _ Hd') as (d & -> & _). eauto.
Qed.

Lemma incomplete_domain (s : Sudoku) :
  Complete s → is_incomplete s = true → ∃ k, is_Some (domain s !! k).
Proof.
  intros HC Hinc. apply contains_value_true in Hinc as [k Hk]. eauto.
Qed.

Lemma pick_parent (s : Sudoku) (key : string) (values_list : list Z) (s1 : Sudoku) :
  Inv s → pick s = Ok (key, values_list, s1) → Inv s1 ∧ evolves s s1.
Proof.
  intros HI Hpick.
  destruct (pick_spec _ _ _ _ Hpick) as (Hkey & _ & Hb & Hd & Hu).
  pose proof HI as [Ik Ir Ie Iu In Ic].
  destruct (list_remove_spec _ _ _ Hu In) as [Hnd Hmem].
  split; split.
  - intros k. by rewrite Hb.
  - intros k v. rewrite Hb. apply Ir.
  - intros k. rewrite Hb, Hd, lookup_delete. case_decide; [by intros [? ?]|apply Ie].
  - intros k. rewrite Hmem, Iu, Hd, lookup_delete. case_decide.
    + subst. split; [tauto|by intros [? ?]].
    + split; [tauto|]. intros ?. split; [done|congruence].
  - done.
  - intros k d0. rewrite Hd, lookup_delete. case_decide; [done|apply Ic].
  - intros k _. by rewrite Hb.
  - intros k d0. rewrite Hd, lookup_delete. case_decide; [done|].
    intros H0. exists d0. by split.
  - rewrite Hd, (candidates_delete _ _ _ Hkey). lia.
Qed.

(** the deep copy with the candidate assigned *)
Lemma pick_copy (s : Sudoku) (key : string) (values_list : list Z) (s1 : Sudoku)
    (value : Z) :
  Inv s → pick s = Ok (key, values_list, s1) → value ∈ values_list →
  let p := {| board := <[key := value]> (board s1); guess_list := guess_list s1;
              domain := domain s1; unresolved := unresolved s1 |} in
  steps s p ∧ (S (size (domain p)) = size (domain s))%nat.
Proof.
  intros HI Hpick Hin p. subst p.
  destruct (pick_spec _ _ _ _ Hpick) as (Hkey & _ & Hb & Hd & Hu).
  cbn [domain]. rewrite Hb, Hd. split.
  - destruct (inv_cand _ HI _ _ Hkey) as [_ Hall].
    rewrite Forall_forall in Hall. specialize (Hall _ Hin).
    apply (steps_commit _ _ values_list); [done|done|lia|lia|done].
  - rewrite map_size_delete, Hkey.
    assert (size (domain s) ≠ 0%nat); [|lia].
    intros H0. apply map_size_empty_iff in H0. by rewrite H0 in Hkey.
Qed.

Lemma try_values_ok (n : nat) (s : Sudoku) (key : string) (vals0 : list Z)
    (s1 : Sudoku) (vals : list Z) :
  Inv s → pick s = Ok (key, vals0, s1) → Complete s →
  (∀ p, Inv p → Complete p → is_incomplete p = true →
        (size (domain p) ≤ n)%nat →
        ∃ p1 r, expand_guess_tree n p = Ok (p1, r) ∧ found p r) →
  (size (domain s) ≤ S n)%nat →
  (∀ v, v ∈ vals → v ∈ vals0) →
  ∃ r, try_values (expand_guess_tree n) key s1 vals = Ok r ∧ found s r.
Proof.
  intros HI Hpick HC Hrec Hsize. induction vals as [|value vals IH]; intros Hsub.
  { by exists None. }
  cbn [try_values].
  destruct (pick_copy s key vals0 s1 value HI Hpick) as [Hst0 Hsz0].
  { apply Hsub. left. }
  cbn [domain] in Hsz0.
  destruct (ac3_ok _ (st_inv _ _ Hst0)) as (p & -> & Hstp).
  cbn [mbind result_bind].
  pose proof (steps_trans _ _ _ Hst0 Hstp) as Hst.
  destruct (is_solved_ok p (st_inv _ _ Hst)) as [solved Hsolved].
  rewrite Hsolved. cbn [mbind result_bind].
  assert (IH' : ∃ r, try_values (expand_guess_tree n) key s1 vals = Ok r ∧ found s r).
  { apply IH. intros v Hv. apply Hsub. by right. }
  destruct solved.
  { exists (Some p). by split. }
  destruct (is_incomplete p) eqn:Hinc; [|done].
  destruct (Hrec p) as (p1 & r & -> & Hr).
  - apply Hst.
  - by apply Hst.
  - done.
  - pose proof (evolves_size _ _ (st_ev _ _ Hstp)) as Hle.
    cbn [domain] in Hle. lia.
  - cbn [mbind result_bind]. destruct r as [q|]; [|done].
    exists (Some q). split; [done|]. destruct Hr as [Hq Hqs].
    split; [by eapply steps_trans|done].
Qed.

Lemma expand_ok (n : nat) (s : Sudoku) :
  Inv s → Complete s → is_incomplete s = true → (size (domain s) ≤ n)%nat →
  ∃ s1 r, expand_guess_tree n s = Ok (s1, r) ∧ board s1 = board s ∧ found s r.
Proof.
  revert s. induction n as [|n IH]; intros s HI HC Hinc Hsize.
  { destruct (incomplete_domain s HC Hinc) as [k [d Hk]].
    assert (size (domain s) = 0%nat) as H0 by lia.
    apply map_size_empty_iff in H0. by rewrite H0 in Hk. }
  cbn [expand_guess_tree].
  destruct (incomplete_domain s HC Hinc) as [k0 Hk0].
  destruct (pick_ok s k0 HI Hk0) as (key & vals & s1 & Hpick).
  rewrite Hpick. cbn [mbind result_bind].
  destruct (try_values_ok n s key vals s1 vals HI Hpick HC) as (r & -> & Hr);
    [|done|done|].
  { intros p HIp HCp Hincp Hsz. destruct (IH p HIp HCp Hincp Hsz) as (p1 & r & ? & _ & ?).
    eauto. }
  cbn [mbind result_bind]. exists s1, r. split; [done|]. split; [|done].
  by destruct (pick_spec _ _ _ _ Hpick) as (_ & _ & ? & _).
Qed.

Lemma solve_ok (s : Sudoku) :
  Inv s → Complete s →
  ∃ sp s' r, ac3 s = Ok sp ∧ steps s sp ∧
             solve s = Ok (s', r) ∧ board s' = board sp ∧ found sp r.
Proof.
  intros HI HC. unfold solve. destruct (ac3_ok s HI) as (sp & Hac3 & Hst).
  exists sp. rewrite Hac3. cbn [mbind result_bind].
  destruct (classify_ok sp (st_inv _ _ Hst)) as [v Hv]. rewrite Hv.
  cbn [mbind result_bind]. destruct v.
  - exists sp, (Some sp). conjs; try done.
    split; [apply steps_refl, Hst|by apply classify_Solved].
  - apply classify_Incomplete in Hv as [_ Hinc].
    destruct (expand_ok (S (size (domain sp))) sp) as (s1 & r & -> & Hb & Hr);
      [apply Hst|by apply Hst|done|lia|].
    exists s1, r. by conjs.
  - exists sp, None. by conjs.
Qed.

Lemma backtracking_ok (b0 : gmap string Z) :
  well_formed b0 = true →
  ∃ s0 sp s' r,
    init b0 = Ok s0 ∧ ac3 s0 = Ok sp ∧ steps s0 sp ∧
    solve s0 = Ok (s', r) ∧ board s' = board sp ∧ found sp r ∧
    backtracking b0 = Ok (match r with Some p => board p | None => board sp end).
Proof.
  intros Hwf. destruct (init_ok b0 Hwf) as (s0 & Hinit & Hb & HI & HC).
  destruct (solve_ok s0 HI HC) as (sp & s' & r & Hac3 & Hst & Hsolve & Hbs & Hr).
  exists s0, sp, s', r. conjs; try done.
  unfold backtracking. rewrite Hinit. cbn [mbind result_bind].
  rewrite Hsolve. cbn [mbind result_bind]. destruct r; [done|by rewrite Hbs].
Qed.

(** ** The invariant along a run *)

Lemma reachable_inv (b0 : gmap string Z) (ph : phase) (s : Sudoku) :
  well_formed b0 = true → reachable b0 ph s →
  ∃ s0, init b0 = Ok s0 ∧ Inv s ∧ evolves s0 s ∧ (ph ≠ Branching → Complete s).
Proof.
  intros Hwf. induction 1 as [s Hinit|s s' _ IH Hac3|s key vals s1 _ IH Hcl Hpick
                              |s key vals s1 value _ IH Hcl Hpick Hin].
  - destruct (init_ok b0 Hwf) as (s0 & Hs0 & _ & HI & HC).
    assert (s0 = s) as -> by congruence.
    exists s. conjs; [done|done|apply evolves_refl|done].
  - destruct IH as (s0 & Hs0 & HI & Hev & HC).
    destruct (ac3_ok s HI) as (s'' & Hac3' & Hst).
    assert (s'' = s') as -> by congruence.
    exists s0. conjs; [done|apply Hst| |].
    + eapply evolves_trans; [done|apply Hst].
    + intros _. apply Hst. by apply HC.
  - destruct IH as (s0 & Hs0 & HI & Hev & HC).
    destruct (pick_parent _ _ _ _ HI Hpick) as [HI1 Hev1].
    exists s0. conjs; [done|done|by eapply evolves_trans|done].
  - destruct IH as (s0 & Hs0 & HI & Hev & HC).
    destruct (pick_copy _ _ _ _ value HI Hpick Hin) as [Hst _].
    exists s0. conjs; [done|apply Hst| |].
    + eapply evolves_trans; [done|apply Hst].
    + intros _. apply Hst. by apply HC.
Qed.

(** a cell that holds a given has no Domain entry in the initial object *)
Lemma init_given (b0 : gmap string Z) (s0 : Sudoku) (k : string) (v : Z) :
  well_formed b0 = true → init b0 = Ok s0 → b0 !! k = Some v → v ≠ 0 →
  board s0 !! k = Some v ∧ domain s0 !! k = None.
Proof.
  intros Hwf Hinit Hk Hv.
  destruct (init_ok b0 Hwf) as (s0' & Hs0 & Hb & HI & _).
  assert (s0' = s0) as -> by congruence. rewrite Hb. split; [done|].
  destruct (domain s0 !! k) as [d|] eqn:Hd; [|done].
  assert (board s0 !! k = Some 0) by (apply (inv_empty _ HI); eauto).
  congruence.
Qed.

(** more fuel does not change what [ac3] returns *)
Lemma ac3_while_more (n m : nat) (s s' : Sudoku) :
  ac3_while n s = Ok s' → (n ≤ m)%nat → ac3_while m s = Ok s'.
Proof.
  revert m s. induction n as [|n IH]; intros m s H Hle; [discriminate|].
  destruct m as [|m]; [lia|]. cbn [ac3_while] in *.
  destruct (sweep s) as [[s1 b]|e|]; cbn [mbind result_bind] in *; try discriminate.
  destruct b; [|done]. apply IH; [done|lia].
Qed.

(** ** A checker for the invariant *)

Lemma check_inv_sound (s : Sudoku) : check_inv s = true → Inv s.
Proof.
  unfold check_inv. rewrite !andb_true_iff, !forallb_forall, bool_decide_eq_true.
  intros [[[[Hk Hb] Hd] Hu] Hnd].
  assert (Hb' : ∀ k v, board s !! k = Some v → k ∈ keys ∧ -1 ≤ v ≤ 9).
  { intros k v Hkv. specialize (Hb (k, v)). cbn [fst snd] in Hb.
    rewrite !andb_true_iff, bool_decide_eq_true, !Z.leb_le in Hb.
    destruct Hb as [[? ?] ?]; [|done].
    by apply list_elem_of_In, elem_of_map_to_list. }
  assert (Hd' : ∀ k d, domain s !! k = Some d →
                board s !! k = Some 0 ∧ k ∈ unresolved s ∧ (2 ≤ length d)%nat ∧
                Forall (fun v => 1 ≤ v ≤ 9) d).
  { intros k d Hkd. specialize (Hd (k, d)). cbn [fst snd] in Hd.
    rewrite !andb_true_iff, !bool_decide_eq_true, Nat.leb_le, forallb_forall in Hd.
    destruct Hd as [[[? ?] ?] Hall].
    { by apply list_elem_of_In, elem_of_map_to_list. }
    conjs; try done. apply Forall_forall. intros v Hv.
    apply list_elem_of_In, Hall in Hv.
    rewrite andb_true_iff, !Z.leb_le in Hv. lia. }
  split.
  - intros k. split.
    + intros Hin. apply list_elem_of_In, Hk in Hin.
      by apply bool_decide_eq_true in Hin.
    + intros [v Hv]. by destruct (Hb' _ _ Hv).
  - intros k v Hv. by destruct (Hb' _ _ Hv).
  - intros k [d Hd0]. by destruct (Hd' _ _ Hd0).
  - intros k. split.
    + intros Hin. apply list_elem_of_In, Hu in Hin.
      by apply bool_decide_eq_true in Hin.
    + intros [d Hd0]. by destruct (Hd' _ _ Hd0) as (_ & ? & _).
  - done.
  - intros k d Hd0. by destruct (Hd' _ _ Hd0) as (_ & _ & ? & ?).
Qed.

(** ** Running the model on a grid *)

Lemma holds_true {A} (r : result A) (P : A → bool) :
  holds r P = true → ∃ a, r = Ok a ∧ P a = true.
Proof. destruct r; simpl; [eauto|discriminate..]. Qed.

Lemma start_init (l : list Z) :
  holds (init (parse_board l)) (fun _ => true) = true →
  init (parse_board l) = Ok (start l).
Proof. unfold start. by destruct (init (parse_board l)). Qed.

Lemma propagated_ac3 (l : list Z) :
  holds (ac3 (start l)) (fun _ => true) = true →
  ac3 (start l) = Ok (propagated l).
Proof. unfold propagated. by destruct (ac3 (start l)). Qed.

Opaque parse_board start propagated.

(** ** C1 *)

(** C1 (code bug).  On the unsolvable grid [grid_conflict] the solver fails
    ([solve] returns no object), and [backtracking] returns the caller's
    dictionary as propagation left it: cell A1, empty in the input, holds
    the sentinel -1.  The fallback does not return the original grid. *)
Theorem fallback_returns_mutated_board :
  ∃ s' r,
    solve (start grid_conflict) = Ok (s', None) ∧
    backtracking (parse_board grid_conflict) = Ok r ∧
    parse_board grid_conflict !! "A1" = Some 0 ∧
    r !! "A1" = Some (-1) ∧
    r ≠ parse_board grid_conflict.
Proof.
  destruct (holds_true (solve (start grid_conflict))
              (fun x => match x.2 with None => true | Some _ => false end))
    as ([s' r'] & Hsolve & Hnone); [run|].
  destruct r'; [discriminate Hnone|]. clear Hnone.
  destruct (holds_true (backtracking (parse_board grid_conflict))
              (fun r => bool_decide (r !! "A1" = Some (-1))))
    as (r & Hback & HA1); [run|].
  apply bool_decide_eq_true in HA1.
  assert (H0 : parse_board grid_conflict !! "A1" = Some 0) by run.
  exists s', r. split; [exact Hsolve|]. split; [exact Hback|].
  split; [exact H0|]. split; [exact HA1|].
  intros Heq. rewrite Heq, H0 in HA1. discriminate HA1.
Qed.

(** ** C2 *)




(** ** C3 *)

(** C3 (code bug).  On [grid_block] the last sweep of [ac3] commits 9 to
    A9 and reports no change, so [ac3] returns although 9 is still a
    candidate of A1 in the same row: the state is not a fixpoint, and
    running [ac3] again deletes that candidate. *)
Theorem ac3_stops_before_fixpoint :
  ∃ s s2,
    ac3 (start grid_block) = Ok s ∧
    board s !! "A9" = Some 9 ∧
    domain s !! "A1" = Some [3; 4; 5; 6; 7; 8; 9] ∧
    ¬ arc_consistent s ∧
    ac3 s = Ok s2 ∧
    domain s2 !! "A1" = Some [3; 4; 5; 6; 7; 8].
Proof.
  destruct (holds_true
              (s ← ac3 (start grid_block); s2 ← ac3 s; Ok (s, s2))
              (fun x => bool_decide (board x.1 !! "A9" = Some 9)
                        && bool_decide (domain x.1 !! "A1" = Some [3; 4; 5; 6; 7; 8; 9])
                        && bool_decide (domain x.2 !! "A1" = Some [3; 4; 5; 6; 7; 8])))
    as ([s s2] & Hrun & Hobs); [run|].
  apply bind_Ok in Hrun as (s' & Hs & Hrun).
  apply bind_Ok in Hrun as (s2' & Hs2 & Heq).
  injection Heq as -> ->.
  cbn [fst snd] in Hobs. rewrite !andb_true_iff, !bool_decide_eq_true in Hobs.
  destruct Hobs as [[HA9 HA1] HA1'].
  exists s, s2. split; [exact Hs|]. split; [exact HA9|]. split; [exact HA1|].
  split; [|split; [exact Hs2|exact HA1']].
  intros Harc.
  apply (Harc "A1" [3; 4; 5; 6; 7; 8; 9]
              ["A1"; "A2"; "A3"; "A4"; "A5"; "A6"; "A7"; "A8"; "A9"] "A9" 9);
    [exact HA1|by_compute|by_compute|by_compute|discriminate|exact HA9|lia|].
  by_compute.
Qed.

(** ** C4 *)

(** C4.  In the loop body of [make_moves], when deleting the value [v] of
    the cell [k] leaves the single candidate [c] for [key], the body
    returns without raising; the board of [key] becomes [c] when no cell of
    a group containing [key] holds [c], and the sentinel -1 when one does
    (a cell of the grid is in three groups); [key] leaves Domain and
    Unresolved, and nothing else changes. *)
Theorem collapse_commits (key k : string) (x : mm_vars) (v c : Z) (d : list Z) :
  board (mm_state x) !! k = Some v → v ≠ 0 →
  domain (mm_state x) !! key = Some d → v ∈ d →
  remove_first v d = [c] →
  Forall (Forall (fun k' => is_Some (board (mm_state x) !! k'))) all_groups →
  key ∈ unresolved (mm_state x) → NoDup (unresolved (mm_state x)) →
  ∃ m s',
    make_moves_body key k x = Ok (Ret (s', false)) ∧
    board s' = <[key := m]> (board (mm_state x)) ∧
    domain s' = delete key (domain (mm_state x)) ∧
    (key ∉ unresolved s') ∧
    (∀ k', k' ≠ key → (k' ∈ unresolved s' ↔ k' ∈ unresolved (mm_state x))) ∧
    ((m = -1 ∧ ∃ cl k', cl ∈ all_groups ∧ key ∈ cl ∧ k' ∈ cl ∧
                        board (mm_state x) !! k' = Some c) ∨
     (m = c ∧ ∀ cl k', cl ∈ all_groups → key ∈ cl → k' ∈ cl →
                       board (mm_state x) !! k' ≠ Some c)) ∧
    (key ∈ keys → length (filter (fun cl => key ∈ cl) all_groups) = 3%nat).
Proof.
  intros Hv Hv0 Hd Hin Hrem Hall Hkey Hnd.
  destruct (body_commit key k x v c d Hv Hv0 Hd Hin Hrem Hall Hkey)
    as (m & u & Hbody & Hu & Hcases).
  destruct (list_remove_spec _ _ _ Hu Hnd) as [_ Hmem].
  eexists m, _. split; [exact Hbody|]. cbn [board domain unresolved].
  split; [reflexivity|]. split; [reflexivity|]. split.
  - rewrite Hmem. intros [_ Hne]. by apply Hne.
  - split; [intros k' Hne; rewrite Hmem; tauto|].
    split; [exact Hcases|apply three_groups].
Qed.

Lemma collapse_commits_witness :
  ∃ s', make_moves_body "A1" "A9" collapse_vars = Ok (Ret (s', false)) ∧
        board s' = <["A1" := -1]> (parse_board grid_conflict) ∧
        "A1" ∉ unresolved s'.
Proof.
  destruct (collapse_commits "A1" "A9" collapse_vars 9 1 [1; 9])
    as (m & s' & Hbody & Hb & _ & Hu & _ & Hcases & _).
  - run.
  - lia.
  - run.
  - by_compute.
  - reflexivity.
  - by_compute.
  - by_compute.
  - by_compute.
  - exists s'. split; [exact Hbody|]. split; [|exact Hu].
    destruct Hcases as [[-> _]|[_ Hno]]; [exact Hb|].
    exfalso. apply (Hno ["A1"; "B1"; "C1"; "D1"; "E1"; "F1"; "G1"; "H1"; "I1"] "B1");
      [by_compute|by_compute|by_compute|run].
Defined.

(** ** C5 *)

Lemma solve_search (s sp : Sudoku) :
  ac3 s = Ok sp → classify sp = Ok Incomplete →
  solve s = expand_guess_tree (S (size (domain sp))) sp.
Proof.
  intros Hac3 Hcl. unfold solve. rewrite Hac3. cbn [mbind result_bind].
  by rewrite Hcl.
Qed.

Lemma solve_invalid (s sp : Sudoku) :
  ac3 s = Ok sp → classify sp = Ok Invalid → solve s = Ok (sp, None).
Proof.
  intros Hac3 Hcl. unfold solve. rewrite Hac3. cbn [mbind result_bind].
  by rewrite Hcl.
Qed.

(** propagation on [grid_sentinel] *)
Lemma sentinel_run :
  ∃ sp, ac3 (start grid_sentinel) = Ok sp ∧
        board sp !! "A1" = Some (-1) ∧
        is_incomplete sp = true ∧
        classify sp = Ok Incomplete.
Proof.
  destruct (holds_true (ac3 (start grid_sentinel))
              (fun sp => bool_decide (board sp !! "A1" = Some (-1))
                         && is_incomplete sp
                         && holds (classify sp)
                              (fun v => match v with Incomplete => true | _ => false end)))
    as (sp & Hac3 & Hobs); [run|].
  rewrite !andb_true_iff, bool_decide_eq_true in Hobs.
  destruct Hobs as [[H1 H2] H3]. apply holds_true in H3 as (v & Hv & Hinc).
  destruct v; try discriminate Hinc. exists sp. by conjs.
Qed.

(** C5 (counterexample).  On [grid_sentinel] propagation writes the
    sentinel to A1 and leaves empty cells; [solve] takes the search branch
    all the same. *)
Lemma search_entered_with_sentinel :
  well_formed (parse_board grid_sentinel) = true ∧
  init (parse_board grid_sentinel) = Ok (start grid_sentinel) ∧
  ∃ sp, ac3 (start grid_sentinel) = Ok sp ∧
        board sp !! "A1" = Some (-1) ∧
        is_incomplete sp = true ∧
        classify sp = Ok Incomplete ∧
        solve (start grid_sentinel) =
          expand_guess_tree (S (size (domain sp))) sp.
Proof.
  split; [run|]. split; [apply start_init; run|].
  destruct sentinel_run as (sp & Hac3 & HA1 & Hinc & Hcl).
  exists sp. conjs; try assumption. exact (solve_search _ _ Hac3 Hcl).
Qed.

Lemma incomplete_not_solved (s : Sudoku) :
  is_incomplete s = true → is_solved s = Ok false.
Proof. intros H. unfold is_solved. by rewrite H. Qed.

(** the sentinel stays on the board, so no object found from here is solved *)
Lemma sentinel_found_none (s : Sudoku) (r : option Sudoku) (k : string) :
  Inv s → board s !! k = Some (-1) → found s r → r = None.
Proof.
  intros HI Hk Hr. destruct r as [p|]; [|done]. destruct Hr as [Hst Hsolved].
  assert (Hd : domain s !! k = None).
  { destruct (domain s !! k) as [d|] eqn:Hd; [|done].
    assert (board s !! k = Some 0) by (apply (inv_empty _ HI); eauto).
    congruence. }
  pose proof (ev_frame _ _ (st_ev _ _ Hst) k Hd) as Hp. rewrite Hk in Hp.
  pose proof (is_solved_sentinel p k true Hp Hsolved). discriminate.
Qed.

(** C5 (amended).  After propagation [solve] takes the search branch exactly
    when an empty cell is left, whether or not a cell holds the sentinel; it
    returns the failure result at once exactly when no cell is empty and the
    board is not solved; and when a cell holds the sentinel its result is
    the failure result in either branch. *)
Theorem solve_verdicts (b0 : gmap string Z) (s0 sp : Sudoku) :
  well_formed b0 = true → init b0 = Ok s0 → ac3 s0 = Ok sp →
  (classify sp = Ok Incomplete ↔ is_incomplete sp = true) ∧
  (classify sp = Ok Invalid ↔ is_incomplete sp = false ∧ is_solved sp = Ok false) ∧
  (classify sp = Ok Incomplete →
     solve s0 = expand_guess_tree (S (size (domain sp))) sp) ∧
  (classify sp = Ok Invalid → solve s0 = Ok (sp, None)) ∧
  ((∃ k, board sp !! k = Some (-1)) → ∃ s', solve s0 = Ok (s', None)).
Proof.
  intros Hwf Hinit Hac3. conjs.
  - rewrite classify_Incomplete. split; [tauto|].
    intros H. split; [by apply incomplete_not_solved|done].
  - rewrite classify_Invalid. tauto.
  - apply solve_search, Hac3.
  - apply solve_invalid, Hac3.
  - intros [k Hk].
    destruct (init_ok b0 Hwf) as (s0' & Hinit' & _ & HI & HC).
    assert (s0' = s0) as -> by congruence.
    destruct (solve_ok s0 HI HC) as (sp' & s' & r & Hac3' & Hst & Hsolve & _ & Hr).
    assert (sp' = sp) as -> by congruence.
    rewrite (sentinel_found_none sp r k (st_inv _ _ Hst) Hk Hr) in Hsolve. eauto.
Qed.

Lemma solve_verdicts_witness :
  ∃ sp, ac3 (start grid_sentinel) = Ok sp ∧
        classify sp = Ok Incomplete ∧
        ∃ s', solve (start grid_sentinel) = Ok (s', None).
Proof.
  destruct sentinel_run as (sp & Hac3 & HA1 & _ & _).
  destruct (solve_verdicts (parse_board grid_sentinel) (start grid_sentinel) sp)
    as (Hinc & _ & _ & _ & Hnone).
  - run.
  - apply start_init. run.
  - exact Hac3.
  - exists sp. split; [exact Hac3|]. split.
    + apply Hinc. by destruct sentinel_run as (sp' & Hac3' & _ & Hinc' & _);
        assert (sp' = sp) as -> by congruence.
    + apply Hnone. exists "A1". exact HA1.
Defined.

(** ** C6 *)

Lemma guess_leb_spec (n1 n2 : nat) (k1 k2 : string) :
  guess_leb (n1, k1) (n2, k2) = true ↔
  (n1 < n2)%nat ∨ (n1 = n2 ∧ String.le k1 k2).
Proof.
  unfold guess_leb, String.le. cbn [fst snd].
  rewrite orb_true_iff, andb_true_iff, Nat.ltb_lt, Nat.eqb_eq, Is_true_true.
  done.
Qed.

Lemma expand_unfold (n : nat) (s : Sudoku) (key : string) (vals : list Z)
    (s1 : Sudoku) :
  pick s = Ok (key, vals, s1) →
  expand_guess_tree (S n) s =
    (r ← try_values (expand_guess_tree n) key s1 vals; Ok (s1, r)).
Proof. intros H. cbn [expand_guess_tree]. by rewrite H. Qed.

(** C6.  When the search branches on a propagated, incomplete state, the
    cell it takes is an unresolved cell with the fewest candidates, and
    among those the least in the string order of the keys (the order of
    the tuples [(len, key)]); that cell is the only one with this
    property.  The cell is deleted from Domain and Unresolved, the board is
    not touched, and the candidates are then tried on that parent. *)
Theorem branching_cell_is_most_constrained (b0 : gmap string Z) (s : Sudoku) :
  well_formed b0 = true → reachable b0 Propagated s →
  classify s = Ok Incomplete →
  ∃ key vals s1,
    pick s = Ok (key, vals, s1) ∧
    domain s !! key = Some vals ∧ key ∈ unresolved s ∧
    (∀ k d, domain s !! k = Some d →
       (length vals < length d)%nat ∨ (length vals = length d ∧ String.le key k)) ∧
    (∀ key' vals', domain s !! key' = Some vals' →
       (∀ k d, domain s !! k = Some d →
          (length vals' < length d)%nat ∨
          (length vals' = length d ∧ String.le key' k)) →
       key' = key) ∧
    board s1 = board s ∧ domain s1 = delete key (domain s) ∧
    (key ∉ unresolved s1) ∧
    (∀ k, k ≠ key → (k ∈ unresolved s1 ↔ k ∈ unresolved s)) ∧
    ∀ n, expand_guess_tree (S n) s =
           (r ← try_values (expand_guess_tree n) key s1 vals; Ok (s1, r)).
Proof.
  intros Hwf Hreach Hcl.
  destruct (reachable_inv b0 _ s Hwf Hreach) as (_ & _ & HI & _ & HC).
  apply classify_Incomplete in Hcl as [_ Hinc].
  destruct (incomplete_domain s (HC ltac:(discriminate)) Hinc) as [k0 Hk0].
  destruct (pick_ok s k0 HI Hk0) as (key & vals & s1 & Hpick).
  destruct (pick_spec _ _ _ _ Hpick) as (Hkey & Hmin & Hb & Hd & Hu).
  destruct (list_remove_spec _ _ _ Hu (inv_nodup _ HI)) as [_ Hmem].
  exists key, vals, s1. conjs; try done.
  - apply (inv_unres _ HI). eauto.
  - intros k d Hkd. apply guess_leb_spec. by apply Hmin.
  - intros key' vals' Hkey' Hmin'.
    assert (H1 : guess_leb (length vals, key) (length vals', key') = true)
      by (by apply Hmin).
    assert (H2 : guess_leb (length vals', key') (length vals, key) = true)
      by (apply guess_leb_spec; by apply Hmin').
    pose proof (guess_leb_antisym _ _ H1 H2) as Heq. by injection Heq.
  - rewrite Hmem. intros [_ Hne]. by apply Hne.
  - intros k Hne. rewrite Hmem. tauto.
  - intros n. by apply expand_unfold.
Qed.

Lemma empty_grid_propagated :
  well_formed (parse_board grid_empty) = true ∧
  reachable (parse_board grid_empty) Propagated (propagated grid_empty) ∧
  classify (propagated grid_empty) = Ok Incomplete.
Proof.
  split; [run|]. split; [|run].
  apply (reach_ac3 _ (start grid_empty)).
  - apply reach_init, start_init. run.
  - apply propagated_ac3. run.
Qed.

Lemma branching_cell_is_most_constrained_witness :
  ∃ key vals s1,
    pick (propagated grid_empty) = Ok (key, vals, s1) ∧
    domain (propagated grid_empty) !! key = Some vals ∧
    (key ∉ unresolved s1).
Proof.
  destruct empty_grid_propagated as (Hwf & Hreach & Hcl).
  destruct (branching_cell_is_most_constrained _ _ Hwf Hreach Hcl)
    as (key & vals & s1 & Hpick & Hkey & _ & _ & _ & _ & _ & Hout & _).
  exists key, vals, s1. split; [exact Hpick|]. split; [exact Hkey|exact Hout].
Defined.

(** ** C7 *)

Lemma reachable_branching (b0 : gmap string Z) (s1 : Sudoku) :
  reachable b0 Branching s1 →
  ∃ s key vals, reachable b0 Propagated s ∧ pick s = Ok (key, vals, s1).
Proof. inversion 1; subst. eauto. Qed.

(** C7 (counterexample).  On the empty grid the search takes A1; the parent
    object that is then copied for every candidate holds 0 at A1 and has
    no Domain entry for it. *)
Lemma branching_parent_lacks_domain_entry :
  well_formed (parse_board grid_empty) = true ∧
  ∃ s1, reachable (parse_board grid_empty) Branching s1 ∧
        board s1 !! "A1" = Some 0 ∧ domain s1 !! "A1" = None.
Proof.
  destruct empty_grid_propagated as (Hwf & Hreach & Hcl).
  split; [exact Hwf|].
  destruct (holds_true (pick (propagated grid_empty))
              (fun x => bool_decide (board x.2 !! "A1" = Some 0)
                        && bool_decide (domain x.2 !! "A1" = None)))
    as ([[key vals] s1] & Hpick & Hobs); [run|].
  apply andb_true_iff in Hobs as [H1 H2].
  apply bool_decide_eq_true in H1, H2. cbn [snd] in H1, H2.
  exists s1. split; [|by split].
  exact (reach_pick _ _ _ _ _ Hreach Hcl Hpick).
Qed.

(** C7 (amended).  In every state of a run a cell with a Domain entry is
    empty on the board, and Unresolved has the members of Domain.  In the
    states on which [ac3], the classification and the search are invoked
    every empty cell has a Domain entry; in the parent object of a branch
    point exactly the chosen cell is empty without one. *)
Theorem domain_tracks_empty_cells (b0 : gmap string Z) (ph : phase) (s : Sudoku) :
  well_formed b0 = true → reachable b0 ph s →
  (∀ k, is_Some (domain s !! k) → board s !! k = Some 0) ∧
  (∀ k, k ∈ unresolved s ↔ is_Some (domain s !! k)) ∧
  (ph ≠ Branching → ∀ k, board s !! k = Some 0 → is_Some (domain s !! k)) ∧
  (ph = Branching →
     ∃ key, board s !! key = Some 0 ∧ domain s !! key = None ∧
            ∀ k, board s !! k = Some 0 → k ≠ key → is_Some (domain s !! k)).
Proof.
  intros Hwf Hreach.
  destruct (reachable_inv b0 ph s Hwf Hreach) as (_ & _ & HI & _ & HC).
  split; [apply HI|]. split; [apply HI|]. split; [exact HC|].
  intros ->. destruct (reachable_branching _ _ Hreach) as (sp & key & vals & Hsp & Hpick).
  destruct (reachable_inv b0 _ sp Hwf Hsp) as (_ & _ & HIp & _ & HCp).
  destruct (pick_spec _ _ _ _ Hpick) as (Hkey & _ & Hb & Hd & _).
  exists key. rewrite Hb, Hd. split; [|split].
  - apply (inv_empty _ HIp). eauto.
  - apply lookup_delete_eq.
  - intros k Hk Hne. rewrite lookup_delete_ne by done.
    apply HCp; [discriminate|done].
Qed.

Lemma domain_tracks_empty_cells_witness :
  well_formed (parse_board grid_empty) = true ∧
  is_Some (domain (propagated grid_empty) !! "A1").
Proof.
  destruct empty_grid_propagated as (Hwf & Hreach & _).
  split; [exact Hwf|].
  destruct (domain_tracks_empty_cells _ _ _ Hwf Hreach) as (_ & _ & H & _).
  apply H; [discriminate|run].
Defined.

(** ** C8 *)

(** C8 (counterexample).  The first sweep on a grid with the single given 5
    at A1 deletes 5 from the candidates of A2 and reports a change, and no
    cell is resolved by it. *)
Lemma sweep_changes_without_resolving :
  Inv (start grid_one) ∧
  domain (start grid_one) !! "A2" = Some [1; 2; 3; 4; 5; 6; 7; 8; 9] ∧
  ∃ s', sweep (start grid_one) = Ok (s', true) ∧
        domain s' !! "A2" = Some [1; 2; 3; 4; 6; 7; 8; 9] ∧
        unresolved s' = unresolved (start grid_one) ∧
        board s' = board (start grid_one).
Proof.
  split; [apply check_inv_sound; run|]. split; [run|].
  destruct (holds_true (sweep (start grid_one))
              (fun x => x.2
                        && bool_decide (domain x.1 !! "A2" = Some [1; 2; 3; 4; 6; 7; 8; 9])
                        && bool_decide (unresolved x.1 = unresolved (start grid_one))
                        && bool_decide (board x.1 = board (start grid_one))))
    as ([s' b] & Hsweep & Hobs); [run|].
  cbn [fst snd] in Hobs. rewrite !andb_true_iff, !bool_decide_eq_true in Hobs.
  destruct Hobs as [[[-> ?] ?] ?]. exists s'. by conjs.
Qed.

(** C8 (amended).  From every state that satisfies the invariant, [ac3],
    each of its sweeps and each call of [make_moves] return; no candidate
    list ever gains an element and no state gains a Domain entry; a sweep
    that reports a change has deleted at least one candidate (it need not
    have resolved a cell), so at most as many sweeps report a change as
    there are (cell, digit) candidates. *)
Theorem propagation_terminates (s : Sudoku) :
  Inv s →
  (∃ s', ac3 s = Ok s' ∧ Inv s' ∧ evolves s s' ∧
         ∀ fuel, (candidates (domain s) < fuel)%nat → ac3_while fuel s = Ok s') ∧
  (∃ s' b, sweep s = Ok (s', b) ∧ Inv s' ∧ evolves s s' ∧
           (b = true → (candidates (domain s') < candidates (domain s))%nat)) ∧
  (∀ key cl, key ∈ unresolved s → cl ∈ all_groups →
     ∃ s' b, make_moves key cl s = Ok (s', b) ∧ Inv s' ∧ evolves s s' ∧
             (b = true → (candidates (domain s') < candidates (domain s))%nat)).
Proof.
  intros HI. conjs.
  - destruct (ac3_ok s HI) as (s' & Hac3 & Hst). exists s'.
    split; [done|]. split; [apply Hst|]. split; [apply Hst|].
    intros fuel Hfuel. apply (ac3_while_more _ _ _ _ Hac3). lia.
  - destruct (sweep_ok s HI) as (s' & b & Hsw & Hst & Hb). exists s', b.
    split; [done|]. split; [apply Hst|]. split; [apply Hst|done].
  - intros key cl Hkey Hcl.
    destruct (make_moves_ok key cl s HI Hkey) as (s' & b & Hmm & Hst & Hb).
    { intros k. by apply groups_in_keys. }
    exists s', b. split; [done|]. split; [apply Hst|]. split; [apply Hst|done].
Qed.

Lemma propagation_terminates_witness :
  ∃ s', ac3 (start grid_one) = Ok s' ∧ Inv s'.
Proof.
  destruct (propagation_terminates (start grid_one)) as ((s' & Hac3 & HI & _) & _).
  - apply check_inv_sound. run.
  - exists s'. split; [exact Hac3|exact HI].
Defined.

(** ** C9 *)

(** C9.  For a well-formed grid [backtracking] returns a board, and every
    cell that held a digit in the grid holds the same digit in it, whether
    the board is a solution or the fallback; the same is true of the board
    of every state of the run. *)
Theorem givens_are_kept (b0 : gmap string Z) :
  well_formed b0 = true →
  (∃ r, backtracking b0 = Ok r ∧
        ∀ k v, b0 !! k = Some v → v ≠ 0 → r !! k = Some v) ∧
  (∀ ph s k v, reachable b0 ph s → b0 !! k = Some v → v ≠ 0 →
               board s !! k = Some v).
Proof.
  intros Hwf. split.
  - destruct (backtracking_ok b0 Hwf)
      as (s0 & sp & s' & r & Hinit & _ & Hst & _ & _ & Hr & Hback).
    eexists. split; [exact Hback|]. intros k v Hk Hv.
    destruct (init_given b0 s0 k v Hwf Hinit Hk Hv) as [Hb Hd].
    destruct r as [p|].
    + destruct Hr as [Hstp _].
      pose proof (steps_trans _ _ _ Hst Hstp) as Hst'.
      by rewrite (ev_frame _ _ (st_ev _ _ Hst') k Hd).
    + by rewrite (ev_frame _ _ (st_ev _ _ Hst) k Hd).
  - intros ph s k v Hreach Hk Hv.
    destruct (reachable_inv b0 ph s Hwf Hreach) as (s0 & Hinit & _ & Hev & _).
    destruct (init_given b0 s0 k v Hwf Hinit Hk Hv) as [Hb Hd].
    by rewrite (ev_frame _ _ Hev k Hd).
Qed.

Lemma givens_are_kept_witness :
  well_formed (parse_board grid_easy) = true ∧
  ∃ r, backtracking (parse_board grid_easy) = Ok r ∧ r !! "A2" = Some 2.
Proof.
  assert (Hwf : well_formed (parse_board grid_easy) = true) by run.
  split; [exact Hwf|].
  destruct (givens_are_kept (parse_board grid_easy) Hwf) as [(r & Hr & Hk) _].
  exists r. split; [exact Hr|]. apply Hk; [run|lia].
Defined.

(** ** C10 *)

(** C10.  In a run on a well-formed grid, every state on which
    [expand_guess_tree] is invoked (propagated and classified incomplete)
    has a Domain entry, the sorted guess list has a first element, the
    lookup of its key succeeds and yields a non-empty list; no Domain entry
    of any state of the run is empty (each holds at least two candidates);
    and [backtracking] raises no exception. *)
Theorem search_selections_succeed (b0 : gmap string Z) :
  well_formed b0 = true →
  (∀ s, reachable b0 Propagated s → classify s = Ok Incomplete →
        domain s ≠ ∅ ∧
        ∃ key vals s1, pick s = Ok (key, vals, s1) ∧
                       domain s !! key = Some vals ∧ vals ≠ []) ∧
  (∀ ph s k d, reachable b0 ph s → domain s !! k = Some d →
               d ≠ [] ∧ (2 ≤ length d)%nat) ∧
  (∃ r, backtracking b0 = Ok r).
Proof.
  intros Hwf.
  assert (Hne : ∀ ph s k d, reachable b0 ph s → domain s !! k = Some d →
                            d ≠ [] ∧ (2 ≤ length d)%nat).
  { intros ph s k d Hreach Hd.
    destruct (reachable_inv b0 ph s Hwf Hreach) as (_ & _ & HI & _).
    destruct (inv_cand _ HI _ _ Hd) as [Hlen _]. split; [|done].
    intros ->. simpl in Hlen. lia. }
  conjs.
  - intros s Hreach Hcl.
    destruct (reachable_inv b0 _ s Hwf Hreach) as (_ & _ & HI & _ & HC).
    apply classify_Incomplete in Hcl as [_ Hinc].
    destruct (incomplete_domain s (HC ltac:(discriminate)) Hinc) as [k0 Hk0].
    split.
    { intros Hempty. rewrite Hempty, lookup_empty in Hk0. by destruct Hk0. }
    destruct (pick_ok s k0 HI Hk0) as (key & vals & s1 & Hpick).
    destruct (pick_spec _ _ _ _ Hpick) as (Hkey & _).
    exists key, vals, s1. split; [done|]. split; [done|].
    by destruct (Hne _ _ _ _ Hreach Hkey).
  - exact Hne.
  - destruct (backtracking_ok b0 Hwf)
      as (s0 & sp & s' & r & _ & _ & _ & _ & _ & _ & H).
    eauto.
Qed.

Lemma search_selections_succeed_witness :
  well_formed (parse_board grid_empty) = true ∧
  ∃ key vals s1, pick (propagated grid_empty) = Ok (key, vals, s1) ∧ vals ≠ [].
Proof.
  destruct empty_grid_propagated as (Hwf & Hreach & Hcl).
  split; [exact Hwf|].
  destruct (search_selections_succeed _ Hwf) as (H & _).
  destruct (H _ Hreach Hcl) as (_ & key & vals & s1 & Hpick & _ & Hne).
  exists key, vals, s1. split; [exact Hpick|exact Hne].
Defined.

(** ** Propagation as a sequence of steps *)

Lemma prop_step_steps (s s' : Sudoku) : Inv s → prop_step s s' → steps s s'.
Proof.
  intros HI [key k cl v d Hcl Hkey Hk Hv Hv0 Hd Hin Hlen ->
            |key k cl v d c m u Hcl Hkey Hk Hv Hv0 Hd Hin Hrem Hm Hu ->].
  - apply (steps_shrink s key d); [done|done|apply remove_first_subseteq|done|].
    by apply remove_first_length.
  - destruct (make_move_groups_spec (board s) key c all_groups) as (m' & Hm' & Hcases).
    { intros cl' k' Hcl' Hk'. apply (inv_keys _ HI). by eapply groups_in_keys. }
    unfold make_move in Hm. assert (m' = m) as -> by congruence.
    assert (Hc : 1 ≤ c ≤ 9).
    { destruct (inv_cand _ HI _ _ Hd) as [_ Hall]. rewrite Forall_forall in Hall.
      apply Hall, (remove_first_subseteq v d). rewrite Hrem. left. }
    apply (steps_commit s key d); [done|done| | |done];
      destruct Hcases as [[-> _]|[-> _]]; lia.
Qed.

Lemma body_steps (key k : string) (cl : list string) (x : mm_vars)
    (r : ctl mm_vars (Sudoku * bool)) :
  Inv (mm_state x) → key ∈ unresolved (mm_state x) →
  cl ∈ all_groups → key ∈ cl → k ∈ cl →
  make_moves_body key k x = Ok r →
  match r with
  | Go x' => mm_state x' = mm_state x ∨ prop_step (mm_state x) (mm_state x')
  | Ret (s', _) => prop_step (mm_state x) s'
  end.
Proof.
  intros HI Hkey Hcl Hkcl Hk Hbody.
  assert (Hkk : k ∈ keys) by (by eapply groups_in_keys).
  destruct (proj1 (inv_keys _ HI k) Hkk) as [v Hv].
  destruct (proj1 (inv_unres _ HI key) Hkey) as [d Hd].
  destruct (decide (v = 0)) as [->|Hv0].
  { rewrite body_skip_empty in Hbody by done. injection Hbody as <-. by left. }
  destruct (decide (v ∈ d)) as [Hin|Hnin]; cycle 1.
  { rewrite (body_skip_absent _ _ _ _ _ Hv Hd Hnin) in Hbody.
    injection Hbody as <-. by left. }
  pose proof (remove_first_length _ _ Hin) as Hlen.
  destruct (inv_cand _ HI _ _ Hd) as [Hd2 _].
  destruct (decide (2 ≤ length (remove_first v d))%nat) as [Hge|Hlt].
  - rewrite (body_delete _ _ _ _ _ Hv Hv0 Hd Hin Hge) in Hbody.
    injection Hbody as <-. right. cbn [mm_state].
    by eapply (step_delete _ _ key k cl v d).
  - destruct (remove_first v d) as [|c [|c' l]] eqn:Hrem; simpl in *; [lia| |lia].
    destruct (body_commit key k x v c d Hv Hv0 Hd Hin Hrem (Inv_lookups _ HI) Hkey)
      as (m & u & Hbody' & Hu & Hcases).
    rewrite Hbody' in Hbody. injection Hbody as <-.
    destruct (make_move_groups_spec (board (mm_state x)) key c all_groups)
      as (m' & Hm' & Hcases').
    { intros cl' k' Hcl' Hk'. apply (inv_keys _ HI). by eapply groups_in_keys. }
    assert (m' = m) as ->.
    { destruct Hcases as [[-> Hex]|[-> Hno]], Hcases' as [[-> Hex']|[-> Hno']];
        try done.
      - destruct Hex as (cl' & k' & ? & ? & ? & ?). by destruct (Hno' cl' k').
      - destruct Hex' as (cl' & k' & ? & ? & ? & ?). by destruct (Hno cl' k'). }
    by eapply (step_commit _ _ key k cl v d c m u).
Qed.

Lemma rtc_steps (s s' : Sudoku) : Inv s → rtc prop_step s s' → steps s s'.
Proof.
  intros HI Hrtc. induction Hrtc as [s|s s1 s2 H1 _ IH]; [by apply steps_refl|].
  pose proof (prop_step_steps _ _ HI H1) as Hst.
  eapply steps_trans; [done|]. apply IH, Hst.
Qed.

Lemma for_steps (key : string) (cl ks : list string) (x : mm_vars)
    (r : ctl mm_vars (Sudoku * bool)) :
  Inv (mm_state x) → key ∈ unresolved (mm_state x) →
  cl ∈ all_groups → key ∈ cl → (∀ k, k ∈ ks → k ∈ cl) →
  make_moves_for key ks x = Ok r →
  rtc prop_step (mm_state x) (ctl_state r).
Proof.
  intros HI Hkey Hcl Hkcl. revert x r HI Hkey.
  induction ks as [|k ks IH]; intros x r HI Hkey Hks Hfor.
  { injection Hfor as <-. done. }
  cbn [make_moves_for] in Hfor. apply bind_Ok in Hfor as (r1 & Hbody & Hfor).
  assert (Hk : k ∈ cl) by (apply Hks; left).
  pose proof (body_steps key k cl x r1 HI Hkey Hcl Hkcl Hk Hbody) as Hstep.
  destruct (make_moves_body_ok key k x HI Hkey) as (r1' & Hbody' & Hr1).
  { by eapply groups_in_keys. }
  assert (r1' = r1) as -> by congruence.
  destruct r1 as [x1|[s1 b1]].
  - destruct Hr1 as (Hst & Hkey1 & _).
    assert (Hrest : rtc prop_step (mm_state x1) (ctl_state r)).
    { apply IH; [apply Hst|done| |done]. intros k' Hk'. apply Hks. by right. }
    destruct Hstep as [Heq|Hstep]; [by rewrite <- Heq|]. by eapply rtc_l.
  - injection Hfor as <-. by apply rtc_once.
Qed.

Lemma while_steps (fuel : nat) (key : string) (cl : list string) (s : Sudoku)
    (hc : bool) (s' : Sudoku) (b : bool) :
  Inv s → key ∈ unresolved s → cl ∈ all_groups → key ∈ cl →
  make_moves_while fuel key cl s hc = Ok (s', b) → rtc prop_step s s'.
Proof.
  intros HI Hkey Hcl Hkcl. revert s hc HI Hkey.
  induction fuel as [|n IH]; intros s hc HI Hkey Hw; [discriminate|].
  cbn [make_moves_while] in Hw. apply bind_Ok in Hw as (r & Hfor & Hw).
  pose proof (for_steps key cl cl
                {| mm_state := s; continue_loop := false; has_changes := hc |}
                r HI Hkey Hcl Hkcl (fun k H => H) Hfor) as Hrtc.
  cbn [mm_state] in Hrtc.
  destruct (make_moves_for_ok key cl
              {| mm_state := s; continue_loop := false; has_changes := hc |})
    as (r' & Hfor' & Hr); [done|done| |].
  { intros k. by apply groups_in_keys. }
  assert (r' = r) as -> by congruence.
  destruct r as [x1|[s1 b1]].
  - destruct Hr as (Hst & Hkey1 & _). cbn [ctl_state] in Hrtc.
    destruct (continue_loop x1).
    + etrans; [exact Hrtc|]. eapply IH; [apply Hst|done|done].
    + by injection Hw as <- <-.
  - by injection Hw as <- <-.
Qed.

Lemma make_moves_steps (key : string) (cl : list string) (s s' : Sudoku) (b : bool) :
  Inv s → key ∈ unresolved s → cl ∈ all_groups → key ∈ cl →
  make_moves key cl s = Ok (s', b) → rtc prop_step s s'.
Proof. intros HI Hkey Hcl Hkcl. unfold make_moves. by apply while_steps. Qed.

Lemma ac3_keys_steps (cl ks : list string) (s : Sudoku) (hc : bool)
    (s' : Sudoku) (b : bool) :
  Inv s → cl ∈ all_groups → (∀ k, k ∈ ks → k ∈ cl) →
  ac3_keys cl ks s hc = Ok (s', b) → rtc prop_step s s'.
Proof.
  intros HI Hcl. revert s hc HI. induction ks as [|key ks IH]; intros s hc HI Hks H.
  { by injection H as <- <-. }
  assert (Hks' : ∀ k, k ∈ ks → k ∈ cl) by (intros; apply Hks; by right).
  cbn [ac3_keys] in H. case_bool_decide as Hkey; [|by eapply IH].
  destruct hc; [by eapply IH|].
  apply bind_Ok in H as ([s1 b1] & Hmm & H).
  assert (Hkcl : key ∈ cl) by (apply Hks; left).
  pose proof (make_moves_steps _ _ _ _ _ HI Hkey Hcl Hkcl Hmm) as Hrtc.
  etrans; [exact Hrtc|]. eapply IH; [|done|exact H].
  apply (rtc_steps _ _ HI Hrtc).
Qed.

Lemma ac3_groups_steps (cls : list (list string)) (s : Sudoku) (hc : bool)
    (s' : Sudoku) (b : bool) :
  Inv s → (∀ cl, cl ∈ cls → cl ∈ all_groups) →
  ac3_groups cls s hc = Ok (s', b) → rtc prop_step s s'.
Proof.
  revert s hc. induction cls as [|cl cls IH]; intros s hc HI Hcls H.
  { by injection H as <- <-. }
  cbn [ac3_groups] in H. apply bind_Ok in H as ([s1 b1] & Hkeys & H).
  assert (Hrtc : rtc prop_step s s1).
  { eapply (ac3_keys_steps cl cl); [done| |done|exact Hkeys]. apply Hcls. left. }
  etrans; [exact Hrtc|]. eapply IH; [| |exact H].
  - apply (rtc_steps _ _ HI Hrtc).
  - intros cl' Hcl'. apply Hcls. by right.
Qed.

Lemma ac3_while_steps (fuel : nat) (s s' : Sudoku) :
  Inv s → ac3_while fuel s = Ok s' → rtc prop_step s s'.
Proof.
  revert s. induction fuel as [|n IH]; intros s HI H; [discriminate|].
  cbn [ac3_while] in H. apply bind_Ok in H as ([s1 b] & Hsw & H).
  assert (Hrtc : rtc prop_step s s1).
  { unfold sweep in Hsw. by eapply ac3_groups_steps. }
  destruct b; [|by injection H as <-].
  etrans; [exact Hrtc|]. apply IH; [|done]. apply (rtc_steps _ _ HI Hrtc).
Qed.

Lemma ac3_steps (s s' : Sudoku) : Inv s → ac3 s = Ok s' → rtc prop_step s s'.
Proof. intros HI. apply ac3_while_steps, HI. Qed.

Lemma groups_NoDup cl : cl ∈ all_groups → NoDup cl.
Proof.
  assert (H : Forall NoDup all_groups) by by_compute.
  rewrite Forall_forall in H. auto.
Qed.

Lemma valid_digit (σ : gmap string Z) (k : string) (v : Z) :
  well_formed σ = true → valid_board σ → σ !! k = Some v → 1 ≤ v ≤ 9.
Proof.
  intros Hwf [Hfull _] Hk. destruct (well_formed_spec σ Hwf) as [Hkeys Hrange].
  pose proof (Hrange _ _ Hk). destruct (Hfull k) as (v' & Hv' & Hv0 & _).
  { apply Hkeys. eauto. }
  assert (v' = v) as -> by congruence. lia.
Qed.

Lemma valid_distinct (σ : gmap string Z) (cl : list string) (k k' : string) (v : Z) :
  valid_board σ → 1 ≤ v ≤ 9 → cl ∈ all_groups → k ∈ cl → k' ∈ cl →
  σ !! k = Some v → σ !! k' = Some v → k = k'.
Proof.
  intros [_ Honce] Hv Hcl Hk Hk' Hs Hs'. specialize (Honce cl v Hcl Hv).
  assert (H1 : k ∈ filter (fun k => σ !! k = Some v) cl)
    by (by apply list_elem_of_filter).
  assert (H2 : k' ∈ filter (fun k => σ !! k = Some v) cl)
    by (by apply list_elem_of_filter).
  destruct (filter _ cl) as [|z [|z' l]]; simpl in Honce; try lia.
  apply list_elem_of_singleton in H1, H2. congruence.
Qed.

Lemma remove_first_other (v x : Z) (d : list Z) :
  x ∈ d → x ≠ v → x ∈ remove_first v d.
Proof.
  induction d as [|y d IH]; intros Hin Hne; [done|]. simpl.
  apply elem_of_cons in Hin as [->|Hin].
  - destruct (Z.eqb_spec v y); [congruence|left].
  - destruct (Z.eqb_spec v y); [done|]. right. by apply IH.
Qed.

Lemma compatible_step (σ : gmap string Z) (s s' : Sudoku) :
  well_formed σ = true → valid_board σ → Inv s →
  compatible σ s → prop_step s s' → compatible σ s'.
Proof.
  intros Hwf Hvalid HI Hc
    [key k cl v d Hcl Hkey Hk Hv Hv0 Hd Hin Hlen ->
    |key k cl v d c m u Hcl Hkey Hk Hv Hv0 Hd Hin Hrem Hm Hu ->].
  - intros k0. cbn [board domain]. destruct (Hc k0) as [H0|(H0 & d0 & v0 & Hd0 & Hs0 & Hin0)].
    { by left. }
    right. split; [done|]. rewrite lookup_insert. case_decide as Hk0.
    + subst k0. assert (d0 = d) as -> by congruence.
      exists (remove_first v d), v0. split; [done|]. split; [done|].
      apply remove_first_other; [done|]. intros ->.
      destruct (Hc k) as [Hkσ|(Hk0' & _)]; [|congruence].
      rewrite Hv in Hkσ. symmetry in Hkσ.
      pose proof (valid_digit _ _ _ Hwf Hvalid Hkσ) as Hrange.
      assert (key = k) as ->
        by (by eapply (valid_distinct σ cl key k v)).
      congruence.
    + exists d0, v0. by conjs.
  - assert (Hkey0 : board s !! key = Some 0) by (apply (inv_empty _ HI); eauto).
    destruct (Hc key) as [Hbad|(_ & d0 & v0 & Hd0 & Hs0 & Hin0)].
    { rewrite Hkey0 in Hbad. symmetry in Hbad.
      pose proof (valid_digit _ _ _ Hwf Hvalid Hbad). lia. }
    assert (d0 = d) as -> by congruence.
    pose proof (valid_digit _ _ _ Hwf Hvalid Hs0) as Hv0r.
    assert (Hkσ : σ !! k = Some v).
    { destruct (Hc k) as [Hkσ|(Hk0' & _)]; [|congruence]. by rewrite <- Hkσ. }
    assert (Hne : v0 ≠ v).
    { intros ->. assert (key = k) by (by eapply (valid_distinct σ cl key k v)).
      subst k. congruence. }
    assert (c = v0) as ->.
    { pose proof (remove_first_other v v0 d Hin0 Hne) as H1. rewrite Hrem in H1.
      by apply list_elem_of_singleton in H1. }
    assert (m = v0) as ->.
    { destruct (make_move_groups_spec (board s) key v0 all_groups)
        as (m' & Hm' & Hcases).
      { intros cl' k' Hcl' Hk'. apply (inv_keys _ HI). by eapply groups_in_keys. }
      unfold make_move in Hm. assert (m' = m) as -> by congruence.
      destruct Hcases as [[_ Hex]|[-> _]]; [|done].
      destruct Hex as (cl' & k' & Hcl' & Hkey' & Hk' & Hb').
      destruct (Hc k') as [Hk'σ|(Hk'0 & _)];
        [|rewrite Hb' in Hk'0; injection Hk'0 as ->; lia].
      rewrite Hb' in Hk'σ. symmetry in Hk'σ.
      assert (key = k') by (by eapply (valid_distinct σ cl' key k' v0)).
      subst k'. rewrite Hkey0 in Hb'. injection Hb' as <-. lia. }
    intros k0. cbn [board domain]. rewrite lookup_insert, lookup_delete.
    case_decide as Hk0; [subst k0; by left|].
    destruct (Hc k0) as [H0|(H0 & d1 & v1 & Hd1 & Hs1 & Hin1)]; [by left|].
    right. split; [done|]. exists d1, v1. by conjs.
Qed.

Lemma compatible_rtc (σ : gmap string Z) (s s' : Sudoku) :
  well_formed σ = true → valid_board σ → Inv s →
  compatible σ s → rtc prop_step s s' → compatible σ s'.
Proof.
  intros Hwf Hvalid HI Hc Hrtc.
  induction Hrtc as [s|s s1 s2 H1 _ IH]; [done|].
  apply IH.
  - apply (prop_step_steps _ _ HI H1).
  - by eapply compatible_step.
Qed.

Lemma compatible_init (b0 σ : gmap string Z) (s0 : Sudoku) :
  well_formed b0 = true → solution b0 σ → init b0 = Ok s0 → compatible σ s0.
Proof.
  intros Hwf (Hwfσ & Hvalid & Hext) Hinit.
  destruct (init_ok b0 Hwf) as (s0' & Hinit' & Hb & HI & HC).
  assert (s0' = s0) as -> by congruence.
  destruct (well_formed_spec b0 Hwf) as [Hkeys Hrange].
  destruct (well_formed_spec σ Hwfσ) as [Hkeysσ _].
  intros k. rewrite Hb. destruct (b0 !! k) as [v|] eqn:Hk.
  - destruct (decide (v = 0)) as [->|Hv0].
    + right. split; [done|].
      destruct (HC k) as [d Hd]; [by rewrite Hb|].
      destruct (proj1 (Hkeysσ k)) as [v Hv]; [apply Hkeys; eauto|].
      exists d, v. split; [done|]. split; [done|].
      pose proof (valid_digit _ _ _ Hwfσ Hvalid Hv) as Hr.
      assert (d = digits) as ->.
      { unfold init in Hinit. destruct (init_domain_ok b0 keys ∅ []) as (d' & Hd' & Hlook).
        { intros k'. apply Hkeys. }
        rewrite Hd' in Hinit. cbn [mbind result_bind] in Hinit.
        injection Hinit as <-. cbn [domain] in Hd. rewrite Hlook in Hd.
        case_decide; [congruence|by rewrite lookup_empty in Hd]. }
      unfold digits. rewrite !elem_of_cons.
      assert (v = 1 ∨ v = 2 ∨ v = 3 ∨ v = 4 ∨ v = 5 ∨ v = 6 ∨ v = 7 ∨ v = 8 ∨ v = 9)
        by lia.
      tauto.
    + left. symmetry. by apply Hext.
  - left. destruct (σ !! k) as [v|] eqn:Hv; [|done].
    assert (is_Some (b0 !! k)) as [? ?]; [|congruence].
    apply Hkeys, Hkeysσ. eauto.
Qed.

Lemma distinct_values_intro (b : gmap string Z) (cl : list string) (seen : gset Z)
    (vs : list Z) :
  Forall2 (fun k v => b !! k = Some v) cl vs → NoDup vs →
  (∀ v, v ∈ vs → v ∉ seen) →
  distinct_values b cl seen = Ok true.
Proof.
  intros H. revert seen. induction H as [|k v cl vs Hkv _ IH]; intros seen Hnd Hfresh.
  { done. }
  cbn [distinct_values]. rewrite (getitem_Some _ _ _ Hkv). cbn [mbind result_bind].
  apply NoDup_cons in Hnd as [Hv Hnd].
  rewrite bool_decide_eq_false_2 by (apply Hfresh; left).
  apply IH; [done|]. intros v' Hv'. rewrite elem_of_union, elem_of_singleton.
  intros [->|Hs]; [done|]. apply (Hfresh v'); [by right|done].
Qed.

Lemma all_distinct_intro (b : gmap string Z) (cls : list (list string)) :
  (∀ cl, cl ∈ cls → distinct_values b cl ∅ = Ok true) →
  all_distinct b cls = Ok true.
Proof.
  induction cls as [|cl cls IH]; intros H; [done|].
  cbn [all_distinct]. rewrite H by left. cbn [mbind result_bind].
  apply IH. intros cl' Hcl'. apply H. by right.
Qed.

Lemma valid_is_solved (s : Sudoku) :
  (∀ k, k ∈ keys ↔ is_Some (board s !! k)) →
  (∀ k v, board s !! k = Some v → -1 ≤ v ≤ 9) →
  valid_board (board s) → is_solved s = Ok true.
Proof.
  intros Hkeys Hrange Hvalid. pose proof Hvalid as [Hfull Honce].
  assert (Hdigit : ∀ k v, board s !! k = Some v → 1 ≤ v ≤ 9).
  { intros k v Hk. pose proof (Hrange _ _ Hk).
    destruct (Hfull k) as (v' & Hv' & ? & ?); [apply Hkeys; eauto|].
    assert (v' = v) as -> by congruence. lia. }
  unfold is_solved, is_incomplete.
  assert (contains_value 0 (board s) = false) as ->.
  { apply contains_value_false. intros k Hk. pose proof (Hdigit _ _ Hk). lia. }
  assert (contains_value (-1) (board s) = false) as ->.
  { apply contains_value_false. intros k Hk. pose proof (Hdigit _ _ Hk). lia. }
  cbn [orb]. apply all_distinct_intro. intros cl Hcl.
  apply (distinct_values_intro _ _ _ ((fun k => default 0 (board s !! k)) <$> cl)).
  - apply Forall2_fmap_r, Forall_Forall2_diag, Forall_forall. intros k Hk.
    destruct (proj1 (Hkeys k)) as [v Hv]; [by eapply groups_in_keys|].
    unfold compose. by rewrite Hv.
  - apply NoDup_fmap_2_strong; [|by apply groups_NoDup].
    intros k k' Hk Hk' Heq.
    destruct (proj1 (Hkeys k)) as [v Hv]; [by eapply groups_in_keys|].
    destruct (proj1 (Hkeys k')) as [v' Hv']; [by eapply groups_in_keys|].
    rewrite Hv, Hv' in Heq. simpl in Heq. subst v'.
    eapply (valid_distinct (board s) cl k k' v); eauto.
  - intros v _. apply not_elem_of_empty.
Qed.

(** ** The search finds a solution that exists *)

Lemma compatible_full (σ : gmap string Z) (s : Sudoku) :
  compatible σ s → is_incomplete s = false → board s = σ.
Proof.
  intros Hc Hinc. unfold is_incomplete in Hinc.
  rewrite contains_value_false in Hinc. apply map_eq. intros k.
  destruct (Hc k) as [H|[H _]]; [done|]. by destruct (Hinc k).
Qed.

Lemma compatible_copy (σ : gmap string Z) (s : Sudoku) (key : string)
    (vals : list Z) (s1 : Sudoku) (v0 : Z) :
  Inv s → compatible σ s → pick s = Ok (key, vals, s1) → σ !! key = Some v0 →
  compatible σ {| board := <[key := v0]> (board s1); guess_list := guess_list s1;
                  domain := domain s1; unresolved := unresolved s1 |}.
Proof.
  intros HI Hc Hpick Hs.
  destruct (pick_spec _ _ _ _ Hpick) as (Hkey & _ & Hb & Hd & _).
  intros k. cbn [board domain]. rewrite Hb, Hd, lookup_insert.
  case_decide as Hk; [subst; by left|].
  rewrite lookup_delete_ne by done. apply Hc.
Qed.

Lemma try_values_complete (n : nat) (σ : gmap string Z) (s : Sudoku)
    (key : string) (vals0 : list Z) (s1 : Sudoku) (v0 : Z) (vals : list Z) :
  well_formed σ = true → valid_board σ →
  Inv s → pick s = Ok (key, vals0, s1) → Complete s → compatible σ s →
  (∀ p, Inv p → Complete p → is_incomplete p = true →
        (size (domain p) ≤ n)%nat →
        ∃ p1 r, expand_guess_tree n p = Ok (p1, r) ∧ found p r) →
  (∀ p, Inv p → Complete p → is_incomplete p = true →
        (size (domain p) ≤ n)%nat → compatible σ p →
        ∃ p1 q, expand_guess_tree n p = Ok (p1, Some q)) →
  (size (domain s) ≤ S n)%nat →
  (∀ v, v ∈ vals → v ∈ vals0) →
  σ !! key = Some v0 → v0 ∈ vals →
  ∃ q, try_values (expand_guess_tree n) key s1 vals = Ok (Some q).
Proof.
  intros Hwf Hvalid HI Hpick HC Hc Hrec Hrecσ Hsize.
  induction vals as [|value vals IH]; intros Hsub Hs Hin.
  { by apply elem_of_nil in Hin. }
  assert (Hsub' : ∀ v, v ∈ vals → v ∈ vals0) by (intros; apply Hsub; by right).
  destruct (try_values_ok n s key vals0 s1 vals HI Hpick HC Hrec Hsize Hsub')
    as (rest & Hrest & _).
  cbn [try_values].
  destruct (pick_copy s key vals0 s1 value HI Hpick) as [Hst0 Hsz0].
  { apply Hsub. left. }
  cbn [domain] in Hsz0.
  destruct (ac3_ok _ (st_inv _ _ Hst0)) as (p & Hac3 & Hstp). rewrite Hac3.
  cbn [mbind result_bind].
  pose proof (steps_trans _ _ _ Hst0 Hstp) as Hst.
  destruct (is_solved_ok p (st_inv _ _ Hst)) as [solved Hsolved].
  rewrite Hsolved. cbn [mbind result_bind].
  destruct solved; [by eexists|].
  assert (Hszp : (size (domain p) ≤ n)%nat).
  { pose proof (evolves_size _ _ (st_ev _ _ Hstp)) as Hle. cbn [domain] in Hle. lia. }
  assert (Hlater : value ≠ v0 → ∃ q,
            try_values (expand_guess_tree n) key s1 vals = Ok (Some q)).
  { intros Hne. apply IH; [done|done|].
    apply elem_of_cons in Hin as [?|?]; [congruence|done]. }
  assert (Hcp : value = v0 → compatible σ p).
  { intros ->. eapply compatible_rtc; [done|done|apply Hst0| |].
    - by eapply compatible_copy.
    - apply ac3_steps; [apply Hst0|done]. }
  destruct (is_incomplete p) eqn:Hinc.
  - destruct (Hrec p) as (p1 & r & Hp & _);
      [apply Hst|by apply Hst|done|done|].
    rewrite Hp. cbn [mbind result_bind]. destruct r as [q|]; [by eexists|].
    apply Hlater. intros Hv. destruct (Hrecσ p) as (p1' & q & Hq);
      [apply Hst|by apply Hst|done|done|by apply Hcp|].
    congruence.
  - apply Hlater. intros Hv. pose proof (compatible_full σ p (Hcp Hv) Hinc) as Hb.
    assert (is_solved p = Ok true); [|congruence].
    apply valid_is_solved; [apply Hst|apply Hst|by rewrite Hb].
Qed.

Lemma expand_complete (n : nat) (σ : gmap string Z) (s : Sudoku) :
  well_formed σ = true → valid_board σ →
  Inv s → Complete s → is_incomplete s = true → (size (domain s) ≤ n)%nat →
  compatible σ s →
  ∃ s1 q, expand_guess_tree n s = Ok (s1, Some q).
Proof.
  intros Hwf Hvalid. revert s. induction n as [|n IH]; intros s HI HC Hinc Hsize Hc.
  { destruct (expand_ok 0 s HI HC Hinc Hsize) as (? & ? & ? & _). discriminate. }
  cbn [expand_guess_tree].
  destruct (incomplete_domain s HC Hinc) as [k0 Hk0].
  destruct (pick_ok s k0 HI Hk0) as (key & vals & s1 & Hpick).
  rewrite Hpick. cbn [mbind result_bind].
  destruct (pick_spec _ _ _ _ Hpick) as (Hkey & _).
  assert (Hkey0 : board s !! key = Some 0) by (apply (inv_empty _ HI); eauto).
  destruct (Hc key) as [Hbad|(_ & d & v0 & Hd & Hs & Hin)].
  { rewrite Hkey0 in Hbad. symmetry in Hbad.
    pose proof (valid_digit _ _ _ Hwf Hvalid Hbad). lia. }
  assert (d = vals) as -> by congruence.
  assert (Hrec : ∀ p, Inv p → Complete p → is_incomplete p = true →
            (size (domain p) ≤ n)%nat →
            ∃ p1 r, expand_guess_tree n p = Ok (p1, r) ∧ found p r).
  { intros p HIp HCp Hincp Hsz. destruct (expand_ok n p HIp HCp Hincp Hsz)
      as (p1 & r & ? & _ & ?). eauto. }
  assert (Hrecσ : ∀ p, Inv p → Complete p → is_incomplete p = true →
            (size (domain p) ≤ n)%nat → compatible σ p →
            ∃ p1 q, expand_guess_tree n p = Ok (p1, Some q)).
  { intros p HIp HCp Hincp Hsz Hcp. by apply IH. }
  destruct (try_values_complete n σ s key vals s1 v0 vals Hwf Hvalid HI Hpick HC
              Hc Hrec Hrecσ Hsize (fun v H => H) Hs Hin) as (q & ->).
  cbn [mbind result_bind]. eauto.
Qed.

Lemma well_formed_intro (b : gmap string Z) :
  (∀ k, k ∈ keys ↔ is_Some (b !! k)) → (∀ k v, b !! k = Some v → 0 ≤ v ≤ 9) →
  well_formed b = true.
Proof.
  intros Hkeys Hrange. unfold well_formed.
  rewrite andb_true_iff, !forallb_forall. split.
  - intros [k v] Hin. apply list_elem_of_In, elem_of_map_to_list in Hin.
    cbn [fst snd]. rewrite !andb_true_iff, bool_decide_eq_true, !Z.leb_le.
    pose proof (Hrange _ _ Hin). split; [split|]; [|lia|lia].
    apply Hkeys. eauto.
  - intros k Hin. apply list_elem_of_In in Hin. apply bool_decide_eq_true.
    by apply Hkeys.
Qed.

Lemma solved_solution (b0 : gmap string Z) (s0 p : Sudoku) :
  well_formed b0 = true → init b0 = Ok s0 → steps s0 p → is_solved p = Ok true →
  solution b0 (board p).
Proof.
  intros Hwf Hinit Hst Hsolved.
  assert (Hvalid : valid_board (board p)).
  { apply is_solved_valid; [apply Hst|apply Hst|done]. }
  split; [|split; [done|]].
  - apply well_formed_intro; [apply Hst|]. intros k v Hk.
    pose proof (inv_range _ (st_inv _ _ Hst) _ _ Hk).
    destruct Hvalid as [Hfull _]. destruct (Hfull k) as (v' & Hv' & ? & ?).
    { apply (inv_keys _ (st_inv _ _ Hst)). eauto. }
    assert (v' = v) as -> by congruence. lia.
  - intros k v Hk Hv. destruct (init_given b0 s0 k v Hwf Hinit Hk Hv) as [Hb Hd].
    by rewrite (ev_frame _ _ (st_ev _ _ Hst) k Hd).
Qed.

Lemma solve_complete (b0 σ : gmap string Z) :
  well_formed b0 = true → solution b0 σ →
  ∃ s0 s' p, init b0 = Ok s0 ∧ solve s0 = Ok (s', Some p) ∧
             backtracking b0 = Ok (board p) ∧ solution b0 (board p).
Proof.
  intros Hwf Hsol. pose proof Hsol as (Hwfσ & Hvalid & Hext).
  destruct (backtracking_ok b0 Hwf)
    as (s0 & sp & s' & r & Hinit & Hac3 & Hst & Hsolve & _ & Hr & Hback).
  destruct (init_ok b0 Hwf) as (s0' & Hinit' & _ & HI & HC).
  assert (s0' = s0) as -> by congruence.
  assert (Hcsp : compatible σ sp).
  { eapply compatible_rtc; [done|done|exact HI| |by apply ac3_steps].
    exact (compatible_init b0 σ s0 Hwf Hsol Hinit). }
  assert (∃ p, r = Some p) as [p ->].
  { destruct r as [p|]; [eauto|]. exfalso.
    unfold solve in Hsolve. rewrite Hac3 in Hsolve. cbn [mbind result_bind] in Hsolve.
    destruct (classify_ok sp (st_inv _ _ Hst)) as [v Hv]. rewrite Hv in Hsolve.
    cbn [mbind result_bind] in Hsolve. destruct v.
    - discriminate.
    - apply classify_Incomplete in Hv as [_ Hinc].
      destruct (expand_complete (S (size (domain sp))) σ sp)
        as (s1 & q & Hq); [done|done|apply Hst|by apply Hst|done|lia|done|].
      congruence.
    - apply classify_Invalid in Hv as [Hns Hinc].
      pose proof (compatible_full σ sp Hcsp Hinc) as Hb.
      assert (is_solved sp = Ok true); [|congruence].
      apply valid_is_solved; [apply Hst|apply Hst|by rewrite Hb]. }
  destruct Hr as [Hstp Hsolved].
  exists s0, s', p. conjs; try done.
  eapply solved_solution; [done|done| |done]. by eapply steps_trans.
Qed.

Lemma keeps_givens_spec (b0 σ : gmap string Z) :
  keeps_givens b0 σ = true →
  ∀ k v, b0 !! k = Some v → v ≠ 0 → σ !! k = Some v.
Proof.
  unfold keeps_givens. rewrite forallb_forall. intros H k v Hk Hv.
  specialize (H (k, v)). cbn [fst snd] in H.
  rewrite orb_true_iff, Z.eqb_eq, bool_decide_eq_true in H.
  destruct H as [?|?]; [|done|done].
  by apply list_elem_of_In, elem_of_map_to_list.
Qed.

Lemma start_board (l : list Z) :
  holds (init (parse_board l)) (fun _ => true) = true →
  board (start l) = parse_board l.
Proof.
  intros H. apply start_init in H. unfold init in H.
  apply bind_Ok in H as ([d u] & _ & H). by injection H as <-.
Qed.

Lemma solved_grid_valid : valid_board (parse_board grid_solved).
Proof.
  rewrite <- start_board by run.
  apply is_solved_valid; [apply check_inv_sound; run..|run].
Qed.

Lemma easy_solution : solution (parse_board grid_easy) (parse_board grid_solved).
Proof.
  split; [run|]. split; [apply solved_grid_valid|].
  apply keeps_givens_spec. run.
Qed.

Lemma compatible_no_sentinel (σ : gmap string Z) (s : Sudoku) (k : string) :
  well_formed σ = true → valid_board σ → compatible σ s →
  board s !! k ≠ Some (-1).
Proof.
  intros Hwf Hvalid Hc Hk. destruct (Hc k) as [H|[H _]]; [|congruence].
  rewrite Hk in H. symmetry in H. pose proof (valid_digit _ _ _ Hwf Hvalid H). lia.
Qed.

(** X1.  Propagation is sound for every solution: if each cell of a state
    holds the digit of a full valid board [σ] or is empty with that digit
    among its candidates, the same is true of the state [ac3] returns.  So
    [ac3] deletes no candidate that [σ] uses, commits only digits of [σ]
    and writes no sentinel. *)
Theorem propagation_keeps_solutions (σ : gmap string Z) (s s' : Sudoku) :
  Inv s → well_formed σ = true → valid_board σ → compatible σ s →
  ac3 s = Ok s' →
  compatible σ s' ∧ ∀ k, board s' !! k ≠ Some (-1).
Proof.
  intros HI Hwf Hvalid Hc Hac3.
  assert (Hc' : compatible σ s').
  { eapply compatible_rtc; [done|done|exact HI|done|by apply ac3_steps]. }
  split; [done|]. intros k. by eapply compatible_no_sentinel.
Qed.

Lemma propagation_keeps_solutions_witness :
  compatible (parse_board grid_solved) (propagated grid_easy) ∧
  board (propagated grid_easy) !! "A1" ≠ Some (-1).
Proof.
  destruct (propagation_keeps_solutions (parse_board grid_solved)
              (start grid_easy) (propagated grid_easy)) as [Hc Hk].
  - apply check_inv_sound. run.
  - run.
  - apply solved_grid_valid.
  - apply (compatible_init (parse_board grid_easy)); [run|apply easy_solution|].
    apply start_init. run.
  - apply propagated_ac3. run.
  - split; [exact Hc|apply Hk].
Defined.

(** X2.  The solver is complete: when a well-formed grid has a solution,
    [solve] returns an object and [backtracking] returns its board, which
    is a full valid board that keeps the givens. *)
Theorem solver_finds_existing_solution (b0 σ : gmap string Z) :
  well_formed b0 = true → solution b0 σ →
  ∃ s0 s' p, init b0 = Ok s0 ∧ solve s0 = Ok (s', Some p) ∧
             backtracking b0 = Ok (board p) ∧ solution b0 (board p).
Proof. apply solve_complete. Qed.

Lemma solver_finds_existing_solution_witness :
  ∃ r, backtracking (parse_board grid_easy) = Ok r ∧
       solution (parse_board grid_easy) r.
Proof.
  destruct (solver_finds_existing_solution (parse_board grid_easy)
              (parse_board grid_solved)) as (s0 & s' & p & _ & _ & Hback & Hsol).
  - run.
  - apply easy_solution.
  - exists (board p). split; [exact Hback|exact Hsol].
Defined.

(** X3.  A failure is a proof of unsolvability: when [solve] returns no
    object for a well-formed grid, no full valid board keeps its givens. *)
Theorem failure_means_unsolvable (b0 : gmap string Z) (s0 s' : Sudoku) :
  well_formed b0 = true → init b0 = Ok s0 → solve s0 = Ok (s', None) →
  ¬ ∃ σ, solution b0 σ.
Proof.
  intros Hwf Hinit Hsolve [σ Hsol].
  destruct (solve_complete b0 σ Hwf Hsol) as (s0' & s'' & p & Hinit' & Hsolve' & _).
  assert (s0' = s0) as -> by congruence. congruence.
Qed.

Lemma failure_means_unsolvable_witness :
  well_formed (parse_board grid_conflict) = true ∧
  ¬ ∃ σ, solution (parse_board grid_conflict) σ.
Proof.
  destruct (holds_true (solve (start grid_conflict))
              (fun x => match x.2 with None => true | Some _ => false end))
    as ([s' r] & Hsolve & Hnone); [run|].
  destruct r; [discriminate Hnone|].
  split; [run|].
  apply (failure_means_unsolvable (parse_board grid_conflict)
           (start grid_conflict) s').
  - run.
  - apply start_init. run.
  - exact Hsolve.
Defined.

(** X4.  When the solution of a well-formed grid is unique, [backtracking]
    returns exactly that board. *)
Theorem unique_solution_is_returned (b0 σ : gmap string Z) :
  well_formed b0 = true → solution b0 σ →
  (∀ τ, solution b0 τ → τ = σ) →
  backtracking b0 = Ok σ.
Proof.
  intros Hwf Hsol Huniq.
  destruct (solve_complete b0 σ Hwf Hsol) as (s0 & s' & p & _ & _ & Hback & Hp).
  by rewrite <- (Huniq _ Hp).
Qed.

(** when propagation alone fills the grid, every solution is that board *)
Lemma propagation_full_unique (b0 τ : gmap string Z) (s0 sp : Sudoku) :
  well_formed b0 = true → init b0 = Ok s0 → ac3 s0 = Ok sp →
  is_incomplete sp = false → solution b0 τ → τ = board sp.
Proof.
  intros Hwf Hinit Hac3 Hinc Hsol. pose proof Hsol as (Hwfτ & Hvalid & _).
  destruct (init_ok b0 Hwf) as (s0' & Hinit' & _ & HI & _).
  assert (s0' = s0) as -> by congruence.
  symmetry. apply compatible_full; [|done].
  eapply compatible_rtc; [done|done|exact HI| |by apply ac3_steps].
  exact (compatible_init b0 τ s0 Hwf Hsol Hinit).
Qed.

Lemma unique_solution_is_returned_witness :
  backtracking (parse_board grid_easy) = Ok (parse_board grid_solved).
Proof.
  assert (Hwf : well_formed (parse_board grid_easy) = true) by run.
  assert (Hinit : init (parse_board grid_easy) = Ok (start grid_easy))
    by (apply start_init; run).
  assert (Hac3 : ac3 (start grid_easy) = Ok (propagated grid_easy))
    by (apply propagated_ac3; run).
  assert (Hfull : is_incomplete (propagated grid_easy) = false) by run.
  apply unique_solution_is_returned; [exact Hwf|apply easy_solution|].
  intros τ Hτ.
  rewrite (propagation_full_unique _ _ _ _ Hwf Hinit Hac3 Hfull Hτ).
  symmetry. apply (propagation_full_unique _ _ _ _ Hwf Hinit Hac3 Hfull).
  apply easy_solution.
Defined.

Lemma conflict_free_step (s s' : Sudoku) :
  Inv s → conflict_free (board s) → prop_step s s' → conflict_free (board s').
Proof.
  intros HI Hcf
    [key k cl v d Hcl Hkey Hk Hv Hv0 Hd Hin Hlen ->
    |key k cl v d c m u Hcl Hkey Hk Hv Hv0 Hd Hin Hrem Hm Hu ->]; [done|].
  destruct (make_move_groups_spec (board s) key c all_groups) as (m' & Hm' & Hcases).
  { intros cl' k' Hcl' Hk'. apply (inv_keys _ HI). by eapply groups_in_keys. }
  unfold make_move in Hm. assert (m' = m) as -> by congruence.
  intros cl1 k1 k2 w Hcl1 Hk1 Hk2 Hne. cbn [board]. rewrite !lookup_insert.
  destruct (decide (key = k1)) as [<-|Hn1], (decide (key = k2)) as [<-|Hn2];
    try done.
  - intros [= <-] H2. destruct Hcases as [[-> _]|[-> Hno]]; [by right|].
    by destruct (Hno cl1 k2).
  - intros H1 [= <-]. destruct Hcases as [[-> _]|[-> Hno]]; [by right|].
    by destruct (Hno cl1 k1).
  - intros H1 H2. by apply (Hcf cl1 k1 k2 w).
Qed.

Lemma conflict_free_rtc (s s' : Sudoku) :
  Inv s → conflict_free (board s) → rtc prop_step s s' → conflict_free (board s').
Proof.
  intros HI Hcf Hrtc. induction Hrtc as [s|s s1 s2 H1 _ IH]; [done|].
  apply IH; [apply (prop_step_steps _ _ HI H1)|by eapply conflict_free_step].
Qed.

Lemma compatible_conflict_free (σ : gmap string Z) (s : Sudoku) :
  well_formed σ = true → valid_board σ → compatible σ s →
  conflict_free (board s).
Proof.
  intros Hwf Hvalid Hc cl k k' v Hcl Hk Hk' Hne H1 H2.
  destruct (decide (v = 0)) as [?|Hv0]; [by left|]. exfalso.
  destruct (Hc k) as [Hs|[? _]]; [|congruence].
  destruct (Hc k') as [Hs'|[? _]]; [|congruence].
  rewrite H1 in Hs. rewrite H2 in Hs'. symmetry in Hs, Hs'.
  pose proof (valid_digit _ _ _ Hwf Hvalid Hs).
  apply Hne. by eapply (valid_distinct σ cl k k' v).
Qed.

(** X5.  Propagation creates no conflict: if no two cells of a group hold
    the same digit before [ac3], none do after it (the sentinel apart). *)
Theorem propagation_keeps_conflict_free (s s' : Sudoku) :
  Inv s → conflict_free (board s) → ac3 s = Ok s' → conflict_free (board s').
Proof.
  intros HI Hcf Hac3. eapply conflict_free_rtc; [exact HI|done|].
  by apply ac3_steps.
Qed.

Lemma propagation_keeps_conflict_free_witness :
  conflict_free (board (start grid_easy)) ∧
  conflict_free (board (propagated grid_easy)).
Proof.
  assert (H0 : conflict_free (board (start grid_easy))).
  { apply (compatible_conflict_free (parse_board grid_solved));
      [run|apply solved_grid_valid|].
    apply (compatible_init (parse_board grid_easy)); [run|apply easy_solution|].
    apply start_init. run. }
  split; [exact H0|].
  apply (propagation_keeps_conflict_free (start grid_easy)).
  - apply check_inv_sound. run.
  - exact H0.
  - apply propagated_ac3. run.
Defined.

(** X6.  For an object that satisfies the invariant (the 81 cells, values
    from -1 to 9), [is_solved] answers true exactly when every row, column
    and block of the board holds each digit once, and false otherwise; it
    raises nothing. *)
Theorem is_solved_iff_valid (s : Sudoku) :
  Inv s →
  (is_solved s = Ok true ↔ valid_board (board s)) ∧
  (is_solved s = Ok false ↔ ¬ valid_board (board s)).
Proof.
  intros HI.
  assert (H1 : is_solved s = Ok true ↔ valid_board (board s)).
  { split.
    - apply is_solved_valid; apply HI.
    - apply valid_is_solved; apply HI. }
  split; [done|]. destruct (is_solved_ok s HI) as [[|] Hr]; rewrite Hr.
  - split; [discriminate|]. intros Hn. destruct Hn. by apply H1.
  - split; [|done]. intros _ Hv. apply H1 in Hv. congruence.
Qed.

Lemma is_solved_iff_valid_witness :
  is_solved (start grid_conflict) = Ok false ∧
  ¬ valid_board (board (start grid_conflict)).
Proof.
  destruct (is_solved_iff_valid (start grid_conflict)) as [_ H].
  - apply check_inv_sound. run.
  - assert (Hf : is_solved (start grid_conflict) = Ok false) by run.
    split; [exact Hf|apply H, Hf].
Defined.

(** ** A grid without empty cells *)

Lemma ac3_keys_resolved (cl ks : list string) (s : Sudoku) (hc : bool) :
  unresolved s = [] → ac3_keys cl ks s hc = Ok (s, hc).
Proof.
  intros Hu. induction ks as [|key ks IH]; [done|]. cbn [ac3_keys].
  rewrite bool_decide_eq_false_2; [done|]. rewrite Hu. apply not_elem_of_nil.
Qed.

Lemma ac3_groups_resolved (cls : list (list string)) (s : Sudoku) (hc : bool) :
  unresolved s = [] → ac3_groups cls s hc = Ok (s, hc).
Proof.
  intros Hu. induction cls as [|cl cls IH]; [done|]. cbn [ac3_groups].
  rewrite ac3_keys_resolved by done. cbn [mbind result_bind]. done.
Qed.

Lemma ac3_resolved (s : Sudoku) : unresolved s = [] → ac3 s = Ok s.
Proof.
  intros Hu. unfold ac3. cbn [ac3_while]. unfold sweep.
  by rewrite ac3_groups_resolved.
Qed.

Lemma init_full (b : gmap string Z) :
  well_formed b = true → contains_value 0 b = false →
  ∃ s0, init b = Ok s0 ∧ board s0 = b ∧ unresolved s0 = [] ∧ Inv s0.
Proof.
  intros Hwf H0. rewrite contains_value_false in H0.
  destruct (init_ok b Hwf) as (s0 & Hinit & Hb & HI & _).
  exists s0. conjs; try done.
  destruct (unresolved s0) as [|k u] eqn:Hu; [done|]. exfalso.
  assert (Hk : k ∈ unresolved s0) by (rewrite Hu; left).
  apply (inv_unres _ HI), (inv_empty _ HI) in Hk. rewrite Hb in Hk.
  by destruct (H0 k).
Qed.

(** X7.  A well-formed grid without empty cells comes back unchanged,
    whether it is valid or not: [solve] returns the object itself when the
    grid is valid and nothing when it is not, and [backtracking] returns
    the grid in both cases. *)
Theorem full_grid_is_echoed (b : gmap string Z) :
  well_formed b = true → contains_value 0 b = false →
  backtracking b = Ok b ∧
  ∃ s0, init b = Ok s0 ∧
        ((valid_board b ∧ solve s0 = Ok (s0, Some s0)) ∨
         (¬ valid_board b ∧ solve s0 = Ok (s0, None))).
Proof.
  intros Hwf H0. destruct (init_full b Hwf H0) as (s0 & Hinit & Hb & Hu & HI).
  pose proof (ac3_resolved s0 Hu) as Hac3.
  assert (Ht : is_solved s0 = Ok true ↔ valid_board (board s0)).
  { split; [apply is_solved_valid; apply HI|apply valid_is_solved; apply HI]. }
  rewrite Hb in Ht.
  assert (Hcases : (valid_board b ∧ solve s0 = Ok (s0, Some s0)) ∨
                   (¬ valid_board b ∧ solve s0 = Ok (s0, None))).
  { unfold solve, classify. rewrite Hac3. cbn [mbind result_bind].
    destruct (is_solved_ok s0 HI) as [[|] Hr]; rewrite Hr; cbn [mbind result_bind].
    - left. split; [by apply Ht|done].
    - right. split; [intros Hv; apply Ht in Hv; congruence|].
      unfold is_incomplete. by rewrite Hb, H0. }
  split; [|eauto]. unfold backtracking. rewrite Hinit. cbn [mbind result_bind].
  destruct Hcases as [[_ ->]|[_ ->]]; cbn [mbind result_bind]; by rewrite Hb.
Qed.

Lemma full_grid_is_echoed_witness :
  backtracking (parse_board grid_solved) = Ok (parse_board grid_solved).
Proof.
  apply (full_grid_is_echoed (parse_board grid_solved)); run.
Defined.

(** ** A dictionary that lacks a cell *)

Lemma init_domain_missing (b : gmap string Z) (ks : list string)
    (d : gmap string (list Z)) (u : list string) (k : string) :
  k ∈ ks → b !! k = None → init_domain b ks d u = Raise KeyError.
Proof.
  revert d u. induction ks as [|k0 ks IH]; intros d u Hin Hk.
  { by apply elem_of_nil in Hin. }
  cbn [init_domain]. unfold getitem. destruct (b !! k0) as [v|] eqn:Hk0; [|done].
  cbn [mbind result_bind].
  apply elem_of_cons in Hin as [->|Hin]; [congruence|].
  destruct (Z.eqb v 0); by apply IH.
Qed.

(** X8.  [Sudoku(board)] raises KeyError exactly when the dictionary lacks
    one of the 81 cells, whatever else it holds, and [backtracking] raises
    it too; with all 81 cells present the object is built on that very
    dictionary, for any values. *)
Theorem missing_cell_raises_KeyError (b : gmap string Z) :
  (init b = Raise KeyError ↔ ∃ k, k ∈ keys ∧ b !! k = None) ∧
  ((∃ k, k ∈ keys ∧ b !! k = None) → backtracking b = Raise KeyError) ∧
  ((∀ k, k ∈ keys → is_Some (b !! k)) → ∃ s, init b = Ok s ∧ board s = b).
Proof.
  assert (Hmiss : (∃ k, k ∈ keys ∧ b !! k = None) → init b = Raise KeyError).
  { intros (k & Hk & Hb). unfold init.
    by rewrite (init_domain_missing b keys ∅ [] k Hk Hb). }
  assert (Hall : (∀ k, k ∈ keys → is_Some (b !! k)) →
                 ∃ s, init b = Ok s ∧ board s = b).
  { intros H. unfold init. destruct (init_domain_ok b keys ∅ [] H) as (d & -> & _).
    cbn [mbind result_bind]. eauto. }
  split; [split; [|done]|split; [|done]].
  - intros Hinit. destruct (decide (Forall (fun k => is_Some (b !! k)) keys)) as [H|H].
    + rewrite Forall_forall in H. destruct (Hall H) as (s & Hs & _). congruence.
    + apply not_Forall_Exists in H; [|apply _].
      apply Exists_exists in H as (k & Hk & Hn). exists k. split; [done|].
      by apply eq_None_not_Some.
  - intros H. unfold backtracking. by rewrite (Hmiss H).
Qed.

(** ** Reading and writing grids *)

Lemma cell_positions_zip : cell_positions = zip keys (seq 0 81).
Proof. reflexivity. Qed.

Lemma parse_board_unfold (l : list Z) : parse_board l = list_to_map (zip keys l).
Proof. reflexivity. Qed.

Lemma int_char_inv (a : Ascii.ascii) (v : Z) :
  int_char a = Ok v → a = digit_char v ∧ 0 ≤ v ≤ 9.
Proof.
  unfold int_char, digit_char.
  destruct (Z.leb_spec 48 (Z.of_nat (Ascii.nat_of_ascii a))); [|discriminate].
  destruct (Z.leb_spec (Z.of_nat (Ascii.nat_of_ascii a)) 57); [|discriminate].
  cbn [andb]. intros [= <-]. split; [|lia].
  replace (48 + Z.to_nat (Z.of_nat (Ascii.nat_of_ascii a) - 48))%nat
    with (Ascii.nat_of_ascii a) by lia.
  by rewrite Ascii.ascii_nat_embedding.
Qed.

Lemma int_char_digit (v : Z) : 0 ≤ v ≤ 9 → int_char (digit_char v) = Ok v.
Proof.
  intros Hv.
  assert (v = 0 ∨ v = 1 ∨ v = 2 ∨ v = 3 ∨ v = 4 ∨ v = 5 ∨ v = 6 ∨ v = 7 ∨
          v = 8 ∨ v = 9) as H by lia.
  repeat (destruct H as [->|H]; [reflexivity|]). by subst.
Qed.

Lemma str_int_digit (v : Z) :
  0 ≤ v ≤ 9 → str_int v = String (digit_char v) EmptyString.
Proof.
  intros Hv.
  assert (v = 0 ∨ v = 1 ∨ v = 2 ∨ v = 3 ∨ v = 4 ∨ v = 5 ∨ v = 6 ∨ v = 7 ∨
          v = 8 ∨ v = 9) as H by lia.
  repeat (destruct H as [->|H]; [reflexivity|]). by subst.
Qed.

Lemma line_of_get (vs : list Z) (i : nat) :
  String.get i (line_of vs) = digit_char <$> vs !! i.
Proof.
  revert i. induction vs as [|v vs IH]; intros i; [done|].
  destruct i as [|i]; [done|]. simpl. apply IH.
Qed.

Lemma line_of_length (vs : list Z) : String.length (line_of vs) = length vs.
Proof. induction vs as [|v vs IH]; [done|]. simpl. by rewrite IH. Qed.

Lemma concat_digits (vs : list Z) :
  Forall (fun v => 0 ≤ v ≤ 9) vs →
  String.concat "" (str_int <$> vs) = line_of vs.
Proof.
  induction 1 as [|v vs Hv _ IH]; [done|].
  rewrite fmap_cons. cbn [String.concat]. rewrite (str_int_digit v Hv).
  destruct vs as [|v' vs]; [done|]. rewrite fmap_cons in *. by rewrite IH.
Qed.

Lemma ordered_vals_spec (b : gmap string Z) (ks : list string) (vs : list Z) :
  Forall2 (fun k v => b !! k = Some v) ks vs →
  ordered_vals b ks = Ok (str_int <$> vs).
Proof.
  induction 1 as [|k v ks vs Hk _ IH]; [done|].
  cbn [ordered_vals]. rewrite (getitem_Some _ _ _ Hk). cbn [mbind result_bind].
  by rewrite IH.
Qed.

Lemma cell_values_lookup (b : gmap string Z) :
  (∀ k, k ∈ keys → is_Some (b !! k)) →
  Forall2 (fun k v => b !! k = Some v) keys (cell_values b).
Proof.
  intros Hall. unfold cell_values.
  apply Forall2_fmap_r, Forall_Forall2_diag, Forall_forall. intros k Hk.
  destruct (Hall k Hk) as [v Hv]. unfold compose. by rewrite Hv.
Qed.

Lemma zip_lookup_map (ks : list string) (vs : list Z) :
  NoDup ks → length vs = length ks →
  Forall2 (fun k v => (list_to_map (zip ks vs) : gmap string Z) !! k = Some v) ks vs.
Proof.
  intros Hnd Hlen. apply Forall2_same_length_lookup_2; [lia|].
  intros i k v Hk Hv. apply elem_of_list_to_map_1.
  - rewrite fst_zip; [done|lia].
  - apply list_elem_of_lookup. exists i. apply lookup_zip_with_Some. eauto.
Qed.

Lemma zip_lookup_None (ks : list string) (vs : list Z) (k : string) :
  k ∉ ks → (list_to_map (zip ks vs) : gmap string Z) !! k = None.
Proof.
  intros Hk. apply not_elem_of_list_to_map_1. intros Hin.
  apply list_elem_of_fmap in Hin as ([k' v] & -> & Hin).
  apply elem_of_zip_l in Hin. done.
Qed.

Lemma read_cells_Ok (line : string) (ks : list string) (n : nat)
    (m m' : gmap string Z) :
  NoDup ks →
  read_cells line (zip ks (seq n (length ks))) m = Ok m' ↔
  ∃ vs, Forall2 (reads line) (seq n (length ks)) vs ∧
        m' = list_to_map (zip ks vs) ∪ m.
Proof.
  revert n m. induction ks as [|k ks IH]; intros n m Hnd.
  { cbn. split.
    - intros [= <-]. exists []. split; [constructor|]. by rewrite (left_id ∅ _).
    - intros (vs & Hvs & ->). apply Forall2_nil_inv_l in Hvs as ->.
      cbn. by rewrite (left_id ∅ _). }
  apply NoDup_cons in Hnd as [Hk Hnd].
  assert (Hcomm : ∀ v vs,
            list_to_map (zip ks vs) ∪ <[k := v]> m
            = list_to_map (zip (k :: ks) (v :: vs)) ∪ m).
  { intros v vs. cbn. rewrite <- insert_union_l, insert_union_r; [done|].
    by apply zip_lookup_None. }
  cbn [length seq zip zip_with read_cells]. split.
  - destruct (String.get n line) as [a|] eqn:Ha; [|discriminate].
    intros H. apply bind_Ok in H as (v & Hv & H).
    apply IH in H as (vs & Hvs & ->); [|done].
    exists (v :: vs). split; [|apply Hcomm]. constructor; [|done]. by exists a.
  - intros (vs & Hvs & ->). apply Forall2_cons_inv_l in Hvs as (v & vs' & Hr & Hvs & ->).
    destruct Hr as (a & Ha & Hv). rewrite Ha, Hv. cbn [mbind result_bind].
    apply IH; [done|]. exists vs'. split; [done|]. symmetry. apply Hcomm.
Qed.

Lemma parse_line_Ok (line : string) (b : gmap string Z) :
  parse_line line = Ok b ↔
  ∃ vs, Forall2 (reads line) (seq 0 81) vs ∧ b = parse_board vs.
Proof.
  unfold parse_line. rewrite cell_positions_zip.
  rewrite (read_cells_Ok line keys 0 ∅ b keys_NoDup). split.
  - intros (vs & Hvs & ->). exists vs. split; [done|].
    by rewrite parse_board_unfold, (right_id ∅ _).
  - intros (vs & Hvs & ->). exists vs. split; [done|].
    by rewrite parse_board_unfold, (right_id ∅ _).
Qed.

Lemma reads_digit (line : string) (i : nat) (v : Z) :
  reads line i v → 0 ≤ v ≤ 9 ∧ String.get i line = Some (digit_char v).
Proof.
  intros (a & Ha & Hv). destruct (int_char_inv _ _ Hv) as [-> ?]. done.
Qed.

Lemma parse_board_well_formed (vs : list Z) :
  length vs = 81%nat → Forall (fun v => 0 ≤ v ≤ 9) vs →
  well_formed (parse_board vs) = true ∧
  Forall2 (fun k v => parse_board vs !! k = Some v) keys vs.
Proof.
  intros Hlen Hall.
  assert (Hlook : Forall2 (fun k v => parse_board vs !! k = Some v) keys vs).
  { rewrite parse_board_unfold. apply zip_lookup_map; [apply keys_NoDup|done]. }
  split; [|done]. apply well_formed_intro.
  - intros k. split.
    + intros Hk. apply list_elem_of_lookup in Hk as [i Hi].
      destruct (Forall2_lookup_l _ _ _ _ _ Hlook Hi) as (v & _ & Hv). eauto.
    + intros [v Hv]. destruct (decide (k ∈ keys)) as [|Hn]; [done|].
      rewrite parse_board_unfold, zip_lookup_None in Hv by done. discriminate.
  - intros k v Hk. rewrite parse_board_unfold in Hk.
    apply elem_of_list_to_map_2, elem_of_zip_r in Hk.
    rewrite Forall_forall in Hall. auto.
Qed.

Lemma get_beyond (s : string) (i : nat) :
  (String.length s ≤ i)%nat → String.get i s = None.
Proof.
  revert i. induction s as [|a s IH]; intros i Hi; [by destruct i|].
  destruct i as [|i]; simpl in *; [lia|]. apply IH. lia.
Qed.

Lemma substring_all (s : string) :
  String.substring 0 (String.length s) s = s.
Proof. apply String.prefix_correct. induction s as [|a s IH]; [done|]. simpl.
  destruct (Ascii.ascii_dec a a); [done|congruence]. Qed.

Lemma board_to_string_digits (b : gmap string Z) (vs : list Z) :
  Forall2 (fun k v => b !! k = Some v) keys vs →
  Forall (fun v => 0 ≤ v ≤ 9) vs →
  board_to_string b = Ok (line_of vs).
Proof.
  intros Hlook Hall. unfold board_to_string.
  rewrite (ordered_vals_spec _ _ _ Hlook). cbn [mbind result_bind].
  by rewrite concat_digits.
Qed.

Lemma parse_line_digits (line : string) (b : gmap string Z) :
  parse_line line = Ok b →
  ∃ vs, Forall2 (reads line) (seq 0 81) vs ∧ b = parse_board vs ∧
        length vs = 81%nat ∧ Forall (fun v => 0 ≤ v ≤ 9) vs.
Proof.
  intros Hparse. apply parse_line_Ok in Hparse as (vs & Hvs & ->).
  exists vs. split; [done|]. split; [done|]. split.
  - apply Forall2_length in Hvs. by rewrite length_seq in Hvs.
  - apply Forall_forall. intros v Hv. apply list_elem_of_lookup in Hv as [i Hi].
    destruct (Forall2_lookup_r _ _ _ _ _ Hvs Hi) as (j & _ & Hr).
    by destruct (reads_digit _ _ _ Hr).
Qed.

Lemma parse_line_well_formed (line : string) (b : gmap string Z) :
  parse_line line = Ok b → well_formed b = true.
Proof.
  intros Hparse. apply parse_line_digits in Hparse as (vs & _ & -> & Hlen & Hall).
  by destruct (parse_board_well_formed vs Hlen Hall).
Qed.

(** X9.  Parsing and writing back: when the dictionary comprehension of
    [__main__] succeeds on a line, the board is well formed and
    [board_to_string] gives back the first 81 characters of the line; a
    line of 81 characters comes back as it is. *)
Theorem parse_then_format (line : string) (b : gmap string Z) :
  parse_line line = Ok b →
  well_formed b = true ∧
  board_to_string b = Ok (String.substring 0 81 line) ∧
  (String.length line = 81%nat → board_to_string b = Ok line).
Proof.
  intros Hparse. apply parse_line_digits in Hparse as (vs & Hvs & -> & Hlen & Hall).
  destruct (parse_board_well_formed vs Hlen Hall) as [Hwf Hlook].
  assert (Hout : board_to_string (parse_board vs) = Ok (String.substring 0 81 line)).
  { rewrite (board_to_string_digits _ vs Hlook Hall). f_equal.
    apply String.get_correct. intros i. rewrite line_of_get.
    destruct (decide (i < 81)%nat) as [Hi|Hi].
    - rewrite String.substring_correct1 by done. rewrite Nat.add_0_r.
      destruct (lookup_lt_is_Some_2 vs i) as [v Hv]; [lia|]. rewrite Hv.
      destruct (Forall2_lookup_r _ _ _ _ _ Hvs Hv) as (j & Hj & Hr).
      apply lookup_seq in Hj as [-> _]. cbn [Nat.add] in Hr. simpl.
      by destruct (reads_digit _ _ _ Hr) as [_ ->].
    - rewrite String.substring_correct2 by lia.
      by rewrite lookup_ge_None_2 by lia. }
  split; [done|]. split; [done|]. intros H81. rewrite Hout, <- H81.
  by rewrite substring_all.
Qed.

Lemma line_easy_parses : parse_line line_easy = Ok (parse_board grid_easy).
Proof.
  destruct (holds_true (parse_line line_easy)
              (fun b => bool_decide (b = parse_board grid_easy)))
    as (b & Hb & Heq); [run|].
  apply bool_decide_eq_true in Heq. subst b. exact Hb.
Qed.

Lemma parse_then_format_witness :
  parse_line line_easy = Ok (parse_board grid_easy) ∧
  board_to_string (parse_board grid_easy) = Ok line_easy.
Proof.
  pose proof line_easy_parses as H.
  split; [exact H|].
  destruct (parse_then_format line_easy (parse_board grid_easy) H) as (_ & _ & H81).
  apply H81. reflexivity.
Defined.

Lemma well_formed_values (b : gmap string Z) :
  well_formed b = true →
  b = parse_board (cell_values b) ∧ length (cell_values b) = 81%nat ∧
  Forall (fun v => 0 ≤ v ≤ 9) (cell_values b) ∧
  Forall2 (fun k v => b !! k = Some v) keys (cell_values b).
Proof.
  intros Hwf. destruct (well_formed_spec b Hwf) as [Hkeys Hrange].
  assert (Hlook : Forall2 (fun k v => b !! k = Some v) keys (cell_values b)).
  { apply cell_values_lookup. intros k. apply Hkeys. }
  assert (Hlen : length (cell_values b) = 81%nat).
  { unfold cell_values. by rewrite length_fmap. }
  assert (Hall : Forall (fun v => 0 ≤ v ≤ 9) (cell_values b)).
  { apply Forall_forall. intros v Hv. apply list_elem_of_lookup in Hv as [i Hi].
    destruct (Forall2_lookup_r _ _ _ _ _ Hlook Hi) as (k & _ & Hk). eauto. }
  split; [|done].
  destruct (parse_board_well_formed _ Hlen Hall) as [Hwf' Hlook'].
  destruct (well_formed_spec _ Hwf') as [Hkeys' _].
  apply map_eq. intros k. destruct (decide (k ∈ keys)) as [Hk|Hk].
  - apply list_elem_of_lookup in Hk as [i Hi].
    destruct (Forall2_lookup_l _ _ _ _ _ Hlook Hi) as (v & Hv & ->).
    destruct (Forall2_lookup_l _ _ _ _ _ Hlook' Hi) as (v' & Hv' & ->).
    congruence.
  - destruct (b !! k) eqn:E1; [destruct Hk; apply Hkeys; eauto|].
    destruct (parse_board (cell_values b) !! k) eqn:E2; [|done].
    destruct Hk. apply Hkeys'. eauto.
Qed.

Lemma parse_line_of (vs : list Z) :
  length vs = 81%nat → Forall (fun v => 0 ≤ v ≤ 9) vs →
  parse_line (line_of vs) = Ok (parse_board vs).
Proof.
  intros Hlen Hall. apply parse_line_Ok. exists vs. split; [|done].
  apply Forall2_same_length_lookup_2; [by rewrite length_seq|].
  intros i j v Hj Hv. apply lookup_seq in Hj as [-> _]. cbn [Nat.add].
  rewrite Forall_forall in Hall.
  exists (digit_char v). rewrite line_of_get, Hv. split; [done|].
  apply int_char_digit, Hall. by eapply list_elem_of_lookup_2.
Qed.

(** X10.  Writing and parsing back: for a well-formed board,
    [board_to_string] returns a line of 81 characters, and parsing that
    line gives the board again. *)
Theorem format_then_parse (b : gmap string Z) :
  well_formed b = true →
  ∃ line, board_to_string b = Ok line ∧ String.length line = 81%nat ∧
          parse_line line = Ok b.
Proof.
  intros Hwf. destruct (well_formed_values b Hwf) as (Hb & Hlen & Hall & Hlook).
  exists (line_of (cell_values b)). split; [by apply board_to_string_digits|].
  split; [by rewrite line_of_length|].
  rewrite (parse_line_of _ Hlen Hall). by rewrite <- Hb.
Qed.

Lemma format_then_parse_witness :
  ∃ line, board_to_string (parse_board grid_easy) = Ok line ∧
          parse_line line = Ok (parse_board grid_easy).
Proof.
  destruct (format_then_parse (parse_board grid_easy)) as (line & H1 & _ & H2);
    [run|].
  exists line. split; [exact H1|exact H2].
Defined.

Lemma read_cells_fails (line : string) (ks : list string) (n j : nat)
    (m : gmap string Z) :
  (j < length ks)%nat → digits_before line n j →
  read_cells line (zip ks (seq n (length ks))) m =
    match String.get (n + j) line with
    | None => Raise IndexError
    | Some a =>
        match int_char a with
        | Ok _ => read_cells line (zip ks (seq n (length ks))) m
        | _ => Raise ValueError
        end
    end.
Proof.
  revert n j m. induction ks as [|k ks IH]; intros n j m Hj Hd; [simpl in Hj; lia|].
  destruct j as [|j].
  - rewrite Nat.add_0_r. cbn [length seq zip zip_with read_cells].
    destruct (String.get n line) as [a|]; [|done].
    unfold int_char. destruct (_ && _); done.
  - destruct (Hd 0%nat) as (v & a & Ha & Hv); [lia|]. rewrite Nat.add_0_r in Ha.
    cbn [length seq zip zip_with read_cells]. rewrite Ha, Hv. cbn [mbind result_bind].
    rewrite (IH (S n) j); [|simpl in Hj; lia|].
    + replace (S n + j)%nat with (n + S j)%nat by lia.
      destruct (String.get (n + S j) line) as [a'|]; [|done].
      destruct (int_char a'); done.
    + intros i Hi. destruct (Hd (S i)) as (v' & Hr); [lia|].
      exists v'. by replace (S n + i)%nat with (n + S i)%nat by lia.
Qed.

Lemma parse_line_IndexError (line : string) (j : nat) :
  (j < 81)%nat → digits_before line 0 j → String.get j line = None →
  parse_line line = Raise IndexError.
Proof.
  intros Hj Hd Hget. unfold parse_line. rewrite cell_positions_zip.
  assert (H81 : length keys = 81%nat) by reflexivity.
  rewrite <- H81, (read_cells_fails line keys 0 j ∅) by (by rewrite ?H81).
  cbn [Nat.add]. by rewrite Hget.
Qed.

(** X11.  The errors of parsing a line of ASCII characters: when the
    first [j < 81] characters are digits and the line ends there, the
    comprehension raises IndexError; when the next character is not one
    of 0..9, it raises ValueError; it succeeds exactly when the first 81
    characters are digits.  (Outside ASCII the code's [int] accepts other
    decimal digits as well; such lines are not covered.) *)
Theorem parse_errors (line : string) :
  ascii_line line = true →
  (∀ j, (j < 81)%nat → digits_before line 0 j →
        String.get j line = None → parse_line line = Raise IndexError) ∧
  (∀ j a, (j < 81)%nat → digits_before line 0 j →
          String.get j line = Some a →
          (Ascii.nat_of_ascii a < 48 ∨ 57 < Ascii.nat_of_ascii a)%nat →
          parse_line line = Raise ValueError) ∧
  ((∃ b, parse_line line = Ok b) ↔ digits_before line 0 81).
Proof.
  intros _. split; [apply parse_line_IndexError|].
  unfold parse_line. rewrite cell_positions_zip.
  assert (H81 : length keys = 81%nat) by reflexivity.
  split.
  - intros j a Hj Hd Hget Ha.
    assert (Hv : int_char a = Raise ValueError).
    { unfold int_char.
      destruct (Z.leb_spec 48 (Z.of_nat (Ascii.nat_of_ascii a)));
        destruct (Z.leb_spec (Z.of_nat (Ascii.nat_of_ascii a)) 57);
        cbn [andb]; try done; lia. }
    rewrite <- H81, (read_cells_fails line keys 0 j ∅) by (by rewrite ?H81).
    cbn [Nat.add]. by rewrite Hget, Hv.
  - rewrite <- H81. split.
    + intros [b Hb]. apply (read_cells_Ok _ _ _ _ _ keys_NoDup) in Hb as (vs & Hvs & _).
      intros i Hi. destruct (Forall2_lookup_l _ _ _ i (0 + i)%nat Hvs) as (v & _ & Hr).
      { apply lookup_seq. split; [done|lia]. }
      eauto.
    + intros Hd.
      assert (∃ vs, Forall2 (reads line) (seq 0 (length keys)) vs) as [vs Hvs].
      { rewrite H81 in *. clear H81. revert Hd. generalize 81%nat. intros n Hd.
        induction n as [|n IHn]; [exists []; constructor|].
        destruct IHn as [vs Hvs]; [intros i Hi; apply Hd; lia|].
        destruct (Hd n) as [v Hv]; [lia|]. exists (vs ++ [v])%list.
        rewrite seq_S. apply Forall2_app; [done|]. by constructor. }
      eexists. apply (read_cells_Ok _ _ _ _ _ keys_NoDup). eauto.
Qed.

Lemma parse_errors_witness :
  ascii_line "12x" = true ∧
  parse_line "123" = Raise IndexError ∧ parse_line "12x" = Raise ValueError.
Proof.
  split; [reflexivity|]. split.
  - apply (proj1 (parse_errors "123" eq_refl) 3%nat); [lia| |reflexivity].
    intros i Hi. destruct i as [|[|[|i]]]; [| | |lia]; eexists _, _; split; reflexivity.
  - eapply (proj1 (proj2 (parse_errors "12x" eq_refl)) 2%nat);
      [lia| |reflexivity|right; vm_compute; lia].
    intros i Hi. destruct i as [|[|i]]; [| |lia]; eexists _, _; split; reflexivity.
Defined.

Lemma append_empty (x : string) : x +:+ "" = x.
Proof.
  induction x as [|a x IH]; [reflexivity|].
  change (String a (x +:+ "") = String a x). by rewrite IH.
Qed.

Lemma append_length (x y : string) :
  String.length (x +:+ y) = (String.length x + String.length y)%nat.
Proof.
  induction x as [|a x IH]; [reflexivity|].
  change (S (String.length (x +:+ y)) = S (String.length x + String.length y)).
  by rewrite IH.
Qed.

Lemma concat_cons (x : string) (xs : list string) :
  String.concat "" (x :: xs) = x +:+ String.concat "" xs.
Proof.
  destruct xs as [|y ys]; [|done]. cbn [String.concat]. by rewrite append_empty.
Qed.

Lemma str_int_length (v : Z) :
  -1 ≤ v ≤ 9 →
  String.length (str_int v) = if decide (v = -1) then 2%nat else 1%nat.
Proof.
  intros Hv.
  assert (v = -1 ∨ v = 0 ∨ v = 1 ∨ v = 2 ∨ v = 3 ∨ v = 4 ∨ v = 5 ∨ v = 6 ∨
          v = 7 ∨ v = 8 ∨ v = 9) as H by lia.
  repeat (destruct H as [->|H]; [reflexivity|]). by subst.
Qed.

Lemma ordered_width (b : gmap string Z) (ks : list string) (vs : list Z) :
  Forall2 (fun k v => b !! k = Some v) ks vs →
  Forall (fun v => -1 ≤ v ≤ 9) vs →
  String.length (String.concat "" (str_int <$> vs)) =
    (length ks + length (filter (fun k => b !! k = Some (-1)%Z) ks))%nat.
Proof.
  induction 1 as [|k v ks vs Hk _ IH]; intros Hall; [done|].
  apply Forall_cons in Hall as [Hv Hall]. rewrite fmap_cons, concat_cons.
  rewrite append_length, IH, (str_int_length v Hv), filter_cons by done.
  destruct (decide (v = -1)) as [->|Hne].
  - rewrite decide_True by done. simpl. lia.
  - rewrite decide_False by congruence. simpl. lia.
Qed.

(** X12.  The width of the written line: for the board of an object that
    satisfies the invariant, [str(sudoku)] is a string of 81 characters
    plus one more for each cell that holds the sentinel -1. *)
Theorem to_str_width (s : Sudoku) :
  Inv s →
  ∃ out, to_str s = Ok out ∧
         String.length out =
           (81 + length (filter (fun k => board s !! k = Some (-1)%Z) keys))%nat.
Proof.
  intros HI.
  assert (Hlook : Forall2 (fun k v => board s !! k = Some v) keys (cell_values (board s))).
  { apply cell_values_lookup. intros k. apply (inv_keys _ HI). }
  assert (Hall : Forall (fun v => -1 ≤ v ≤ 9) (cell_values (board s))).
  { apply Forall_forall. intros v Hv. apply list_elem_of_lookup in Hv as [i Hi].
    destruct (Forall2_lookup_r _ _ _ _ _ Hlook Hi) as (k & _ & Hk).
    by apply (inv_range _ HI k). }
  unfold to_str, board_to_string. rewrite (ordered_vals_spec _ _ _ Hlook).
  cbn [mbind result_bind]. eexists. split; [done|].
  by rewrite (ordered_width _ _ _ Hlook Hall).
Qed.

Lemma to_str_width_witness :
  ∃ out, to_str (propagated grid_conflict) = Ok out ∧ String.length out = 82%nat.
Proof.
  destruct (to_str_width (propagated grid_conflict)) as (out & Hout & Hlen).
  - apply check_inv_sound. run.
  - exists out. split; [exact Hout|]. rewrite Hlen. run.
Defined.

(** X13.  End to end: when a line parses to a grid that has a solution,
    [__main__] writes a line of 81 characters and a newline, and the 81
    characters parse to a full valid board that keeps the givens. *)
Theorem solve_line_solves (line : string) (b0 σ : gmap string Z) :
  parse_line line = Ok b0 → solution b0 σ →
  ∃ out τ, solve_line line = Ok (out +:+ newline) ∧
           String.length out = 81%nat ∧
           parse_line out = Ok τ ∧ solution b0 τ.
Proof.
  intros Hparse Hsol. pose proof (parse_line_well_formed line b0 Hparse) as Hwf.
  destruct (solve_complete b0 σ Hwf Hsol) as (s0 & s' & p & _ & _ & Hback & Hp).
  pose proof Hp as (Hwfp & _).
  destruct (well_formed_values (board p) Hwfp) as (Hb & Hlen & Hall & Hlook).
  pose proof (board_to_string_digits _ _ Hlook Hall) as Hout.
  exists (line_of (cell_values (board p))), (board p).
  split; [|split; [by rewrite line_of_length|split; [|done]]];
    [|by rewrite (parse_line_of _ Hlen Hall), <- Hb].
  unfold solve_line. rewrite Hparse. cbn [mbind result_bind].
  rewrite Hback. cbn [mbind result_bind]. by rewrite Hout.
Qed.

Lemma solve_line_solves_witness :
  ∃ out τ, solve_line line_easy = Ok (out +:+ newline) ∧
           parse_line out = Ok τ ∧ solution (parse_board grid_easy) τ.
Proof.
  destruct (solve_line_solves line_easy (parse_board grid_easy)
              (parse_board grid_solved)) as (out & τ & H1 & _ & H2 & H3).
  - apply line_easy_parses.
  - apply easy_solution.
  - exists out, τ. split; [exact H1|]. split; [exact H2|exact H3].
Defined.

(** X14.  The loop over the lines of the file skips a line of fewer than
    9 characters, and a line of 9 to 80 digits ends the run with
    IndexError, whatever lines follow. *)
Theorem short_lines (line : string) (rest : list string) :
  ((String.length line < 9)%nat → solve_lines (line :: rest) = solve_lines rest) ∧
  ((9 ≤ String.length line < 81)%nat →
   digits_before line 0 (String.length line) →
   solve_lines (line :: rest) = Raise IndexError).
Proof.
  split.
  - intros Hlen. cbn [solve_lines].
    by destruct (Nat.ltb_spec (String.length line) 9); [|lia].
  - intros Hlen Hd. cbn [solve_lines].
    destruct (Nat.ltb_spec (String.length line) 9); [lia|].
    unfold solve_line.
    rewrite (parse_line_IndexError line (String.length line)); [done|lia|done|].
    by apply get_beyond.
Qed.

Lemma short_lines_witness :
  solve_lines ["1234"; "123456789"] = Raise IndexError.
Proof.
  rewrite (proj1 (short_lines "1234" ["123456789"])) by (simpl; lia).
  apply (proj2 (short_lines "123456789" [])); [simpl; lia|].
  intros i Hi. simpl in Hi.
  destruct i as [|[|[|[|[|[|[|[|[|i]]]]]]]]]; [..|lia];
    eexists _, _; split; reflexivity.
Defined.

(** X15.  The board that [backtracking] returns keeps every value that the
    first propagation left on the board, digit or sentinel: the search
    writes to empty cells only. *)
Theorem propagated_values_are_kept (b0 : gmap string Z) (s0 sp : Sudoku) :
  well_formed b0 = true → init b0 = Ok s0 → ac3 s0 = Ok sp →
  ∃ r, backtracking b0 = Ok r ∧
       ∀ k v, board sp !! k = Some v → v ≠ 0 → r !! k = Some v.
Proof.
  intros Hwf Hinit Hac3.
  destruct (backtracking_ok b0 Hwf)
    as (s0' & sp' & s' & r & Hinit' & Hac3' & Hst & _ & _ & Hr & Hback).
  assert (s0' = s0) as -> by congruence.
  assert (sp' = sp) as -> by congruence.
  eexists. split; [exact Hback|]. intros k v Hk Hv.
  destruct r as [p|]; [|done]. destruct Hr as [Hstp _].
  assert (Hd : domain sp !! k = None).
  { destruct (domain sp !! k) as [d|] eqn:Hd; [|done].
    assert (board sp !! k = Some 0)
      by (apply (inv_empty _ (st_inv _ _ Hst)); eauto).
    congruence. }
  by rewrite (ev_frame _ _ (st_ev _ _ Hstp) k Hd).
Qed.

Lemma propagated_values_are_kept_witness :
  ∃ r, backtracking (parse_board grid_easy) = Ok r ∧ r !! "A1" = Some 1.
Proof.
  destruct (propagated_values_are_kept (parse_board grid_easy)
              (start grid_easy) (propagated grid_easy)) as (r & Hr & Hk).
  - run.
  - apply start_init. run.
  - apply propagated_ac3. run.
  - exists r. split; [exact Hr|]. apply Hk; [run|lia].
Defined.

Lemma justified_step (s s' : Sudoku) (key : string) (v : Z) :
  Inv s → v ≠ 0 → prop_step s s' → justified s key v → justified s' key v.
Proof.
  intros HI Hv Hstep (cl & k & Hcl & Hkey & Hk & Hb).
  exists cl, k. conjs; try done.
  rewrite (ev_frame _ _ (st_ev _ _ (prop_step_steps _ _ HI Hstep))); [done|].
  destruct (domain s !! k) as [d|] eqn:Hd; [|done].
  assert (board s !! k = Some 0) by (apply (inv_empty _ HI); eauto). congruence.
Qed.

Lemma deleted_step (s s' : Sudoku) (key : string) (d d' : list Z) (v : Z) :
  prop_step s s' → domain s !! key = Some d → domain s' !! key = Some d' →
  v ∈ d → v ∉ d' → justified s' key v.
Proof.
  intros [key1 k cl w d1 Hcl Hkey Hk Hw Hw0 Hd1 Hin Hlen ->
         |key1 k cl w d1 c m u Hcl Hkey Hk Hw Hw0 Hd1 Hin Hrem Hm Hu ->]
    Hd Hd' Hv Hnv; cbn [domain board] in *.
  - rewrite lookup_insert in Hd'. case_decide as Heq; [|congruence].
    subst key1. injection Hd' as <-. assert (d1 = d) as -> by congruence.
    destruct (decide (v = w)) as [->|Hne].
    + by exists cl, k.
    + destruct Hnv. by apply remove_first_other.
  - rewrite lookup_delete in Hd'. case_decide; [done|congruence].
Qed.

Lemma deleted_rtc (s s' : Sudoku) (key : string) (d d' : list Z) (v : Z) :
  Inv s → rtc prop_step s s' →
  domain s !! key = Some d → domain s' !! key = Some d' →
  v ∈ d → v ∉ d' → justified s' key v.
Proof.
  intros HI Hrtc Hd Hd' Hv. revert s' Hrtc d' Hd'.
  apply (rtc_ind_r (fun s' => ∀ d', domain s' !! key = Some d' → v ∉ d' →
                                  justified s' key v));
    [intros d' Hd' Hnv; congruence|].
  intros s1 s2 Hrtc Hstep IH d' Hd' Hnv.
  pose proof (rtc_steps _ _ HI Hrtc) as Hst1.
  pose proof (prop_step_steps _ _ (st_inv _ _ Hst1) Hstep) as Hst2.
  destruct (ev_shrink _ _ (st_ev _ _ Hst2) _ _ Hd') as (d1 & Hd1 & _).
  destruct (decide (v ∈ d1)) as [Hin1|Hnin1].
  - by eapply deleted_step.
  - eapply justified_step; [apply Hst1| |done|by eapply IH].
    destruct (inv_cand _ HI _ _ Hd) as [_ Hall]. rewrite Forall_forall in Hall.
    specialize (Hall _ Hv). lia.
Qed.

(** X16.  Propagation deletes only excluded candidates: when a cell is
    still unresolved after [ac3] and has lost the candidate [v], some cell
    of one of its groups holds [v] on the board [ac3] returns. *)
Theorem deletions_are_justified (s s' : Sudoku) (key : string)
    (d d' : list Z) (v : Z) :
  Inv s → ac3 s = Ok s' →
  domain s !! key = Some d → domain s' !! key = Some d' →
  v ∈ d → v ∉ d' →
  ∃ cl k, cl ∈ all_groups ∧ key ∈ cl ∧ k ∈ cl ∧ board s' !! k = Some v.
Proof.
  intros HI Hac3. apply deleted_rtc; [done|by apply ac3_steps].
Qed.

Lemma deletions_are_justified_witness :
  ∃ s', ac3 (start grid_one) = Ok s' ∧
        ∃ cl k, cl ∈ all_groups ∧ "A2" ∈ cl ∧ k ∈ cl ∧ board s' !! k = Some 5.
Proof.
  destruct (holds_true (ac3 (start grid_one))
              (fun s' => bool_decide (domain s' !! "A2" = Some [1; 2; 3; 4; 6; 7; 8; 9])))
    as (s' & Hac3 & Hd'); [run|].
  apply bool_decide_eq_true in Hd'. exists s'. split; [exact Hac3|].
  apply (deletions_are_justified (start grid_one) s' "A2" digits
           [1; 2; 3; 4; 6; 7; 8; 9] 5).
  - apply check_inv_sound. run.
  - exact Hac3.
  - run.
  - exact Hd'.
  - by_compute.
  - by_compute.
Defined.
